(** * Partial updates (quipubase/partial.py)

    A shallow embedding of the [Partial] class of [quipubase/partial.py] and
    of the recursive merge performed by [Partial.value].

    The development has two layers.

    - The value layer (this first part) sees Python values as immutable
      trees.  It is the layer in which the functional behaviour of
      [Partial.__new__], [Partial.value], [_partial_base_model],
      [_partial_dict], [_partial_list], [_merge_dicts] and [_merge_lists] is
      stated: which value comes out for which patch.
    - The store layer ([Module Store]) sees the same methods as programs
      that allocate and assign objects in a heap, with [copy.deepcopy]
      written out as in CPython's [copy] module.  It is the layer in which
      non-mutation of the original is stated.

    The definitions of both layers come first, with those of the helpers of
    [utils.py] ([Module Utils]); the properties of the value layer, those
    of the store layer ([Module StoreFacts], [Module StoreMore]), the
    agreement of the two layers on the examples of the spec and the
    properties of the helpers ([Module UtilsFacts]) follow. *)

From Stdlib Require Import Ascii String.
From stdpp Require Import base tactics option list numbers strings pretty.

#[local] Set Warnings "-register-all".
#[local] Open Scope Z_scope.
#[local] Open Scope string_scope.

(** ** Python values *)

(** A pydantic [BaseModel] subclass, as far as [partial.py] looks at it:
    its [__name__] and the keys of [get_type_hints]. *)
Record model_class := ModelClass {
  cls_name : string;
  cls_hints : list string
}.

(** The type argument of [Partial[...]].  [TClass] stands for a class that
    is not a [BaseModel] subclass ([dict], [int], ...). *)
Inductive type_arg :=
| TAny
| TModel (c : model_class)
| TClass (name : string).

(** An entry of [cls.__orig_bases__]: [Generic[T]] or [Partial[args]]. *)
Inductive generic_base :=
| BGeneric
| BPartial (args : list type_arg).

(** A class of partials: [Partial] itself or a subclass of it.  [None] is a
    class on which [hasattr(cls, "__orig_bases__")] is false. *)
Record partial_class := PartialClass {
  orig_bases : option (list generic_base)
}.

(** Values.  A [dict] (and the [__dict__] of a record, and the [kwargs] of a
    partial) is a sequence of entries in insertion order; keys are strings.
    An instance of a [BaseModel] subclass carries its class and its
    attributes; the attributes the model knows are the instance's fields. *)
Inductive val :=
| VNone
| VBool (b : bool)
| VInt (z : Z)
| VStr (s : string)
| VList (l : list val)
| VDict (d : entries)
| VModel (c : model_class) (fields : entries)
| VPartial (cls : partial_class) (data : entries)
with entries :=
| ENil
| ECons (key : string) (v : val) (rest : entries).

Scheme val_mut_ind := Induction for val Sort Prop
  with entries_mut_ind := Induction for entries Sort Prop.

Definition is_partial (v : val) : bool :=
  match v with VPartial _ _ => true | _ => false end.
Definition is_dict (v : val) : bool :=
  match v with VDict _ => true | _ => false end.
Definition is_list (v : val) : bool :=
  match v with VList _ => true | _ => false end.
Definition is_model (v : val) : bool :=
  match v with VModel _ _ => true | _ => false end.

(** ** Exceptions *)

Inductive exn :=
| ValueError (msg : string)
| IndexError
| AttributeError (name : string).

Inductive res (A : Type) :=
| Ok (a : A)
| Raise (e : exn).
Arguments Ok {A} a.
Arguments Raise {A} e.

Definition bind {A B : Type} (m : res A) (k : A → res B) : res B :=
  match m with
  | Ok a => k a
  | Raise e => Raise e
  end.

Notation "'do' x <- m ; k" := (bind m (fun x => k))
  (at level 10, x name, m at level 100, k at level 200).

(** [try: body  except (ValueError, IndexError): handler] *)
Definition try_except {A : Type} (body : res A) (handler : res A) : res A :=
  match body with
  | Ok a => Ok a
  | Raise (ValueError _) => handler
  | Raise IndexError => handler
  | Raise e => Raise e
  end.

(** ** Dictionaries *)

(** [d.get(key)]: the value stored at [key], if any. *)
Fixpoint dict_get (key : string) (d : entries) : option val :=
  match d with
  | ENil => None
  | ECons k v rest => if decide (k = key) then Some v else dict_get key rest
  end.

(** [d[key] = x]: the entry keeps its place when [key] is present and is
    appended otherwise. *)
Fixpoint dict_set (key : string) (x : val) (d : entries) : entries :=
  match d with
  | ENil => ECons key x ENil
  | ECons k v rest =>
      if decide (k = key) then ECons k x rest else ECons k v (dict_set key x rest)
  end.

Fixpoint keys (d : entries) : list string :=
  match d with
  | ENil => []
  | ECons k _ rest => k :: keys rest
  end.

Fixpoint items (d : entries) : list (string * val) :=
  match d with
  | ENil => []
  | ECons k v rest => (k, v) :: items rest
  end.

(** [for key, v in d.items(): result = body key v result], where an
    exception raised by the body leaves the loop. *)
Definition for_items {S : Type} (body : string → val → S → res S)
  : entries → S → res S :=
  fix go (d : entries) (result : S) : res S :=
    match d with
    | ENil => Ok result
    | ECons key v rest => do result' <- body key v result; go rest result'
    end.

(** [if key not in d: absent  else: present d[key]] *)
Definition if_in {R : Type} (key : string) (absent : R) (present : val → R)
  : entries → R :=
  fix go (d : entries) : R :=
    match d with
    | ENil => absent
    | ECons k v rest => if decide (k = key) then present v else go rest
    end.

(** In the value layer a deep copy is the value itself. *)
Definition deepcopy {A : Type} (x : A) : A := x.

(** ** [int(idx_str)] on a string *)

Definition is_space (a : ascii) : bool :=
  let n := nat_of_ascii a in
  ((9 <=? n) && (n <=? 13) || (28 <=? n) && (n <=? 32))%nat.

Definition digit_of (a : ascii) : option Z :=
  let n := nat_of_ascii a in
  if ((48 <=? n) && (n <=? 57))%nat then Some (Z.of_nat n - 48) else None.

Fixpoint lstrip (s : string) : string :=
  match s with
  | String a rest => if is_space a then lstrip rest else s
  | EmptyString => s
  end.

Fixpoint all_space (s : string) : bool :=
  match s with
  | String a rest => is_space a && all_space rest
  | EmptyString => true
  end.

(** Decimal digits, single underscores between digits, then white space to
    the end.  [after_digit] says whether the previous character was a
    digit. *)
Fixpoint int_digits (after_digit : bool) (acc : Z) (s : string) : option Z :=
  match s with
  | EmptyString => if after_digit then Some acc else None
  | String a rest =>
      match digit_of a with
      | Some d => int_digits true (acc * 10 + d) rest
      | None =>
          if negb after_digit then None
          else if Ascii.eqb a "_" then int_digits false acc rest
          else if all_space s then Some acc
          else None
      end
  end.

(** [int(s)] for a [str] of ASCII characters, base 10: surrounding white
    space, an optional sign, digits.  Anything else is a [ValueError]. *)
Definition py_int (s : string) : res Z :=
  let parsed :=
    match lstrip s with
    | String "+" rest => int_digits false 0 rest
    | String "-" rest => Z.opp <$> int_digits false 0 rest
    | body => int_digits false 0 body
    end in
  match parsed with
  | Some z => Ok z
  | None => Raise (ValueError ("invalid literal for int() with base 10: " +:+ s))
  end.

(** [l[idx]] for [0 <= idx]; out of range is an [IndexError]. *)
Definition list_getitem (l : list val) (idx : Z) : res val :=
  match l !! Z.to_nat idx with
  | Some x => Ok x
  | None => Raise IndexError
  end.

(** ** Partial classes and [Partial.__new__] *)

(** [class Partial(Generic[T])] *)
Definition Partial : partial_class :=
  {| orig_bases := Some [BGeneric] |}.

(** [create_typed_partial(model_type)]: the class [TypedPartial], whose
    [__orig_bases__] is [(Partial[model_type],)]. *)
Definition create_typed_partial (model_type : type_arg) : partial_class :=
  {| orig_bases := Some [BPartial [model_type]] |}.

(** The loop of [__new__] over [cls.__orig_bases__] (the empty list when the
    class has none): the first base whose origin is [Partial] and whose first
    argument is not [Any] gives [origin_type]. *)
Fixpoint scan_bases (bases : list generic_base) : option type_arg :=
  match bases with
  | [] => None
  | BPartial (TAny :: _) :: bases' => scan_bases bases'
  | BPartial (arg :: _) :: _ => Some arg
  | _ :: bases' => scan_bases bases'
  end.

Definition origin_type (cls : partial_class) : option type_arg :=
  scan_bases (default [] (orig_bases cls)).

(** [[field for field in kwargs if field not in model_fields]] *)
Definition invalid_fields (model_fields : list string) (kwargs : entries)
  : list string :=
  filter (λ field, field ∉ model_fields) (keys kwargs).

Definition error_msg (c : model_class) (invalid : list string) : string :=
  "Invalid fields for " +:+ cls_name c +:+ ": " +:+ String.concat ", " invalid.

(** [Partial.__new__(cls, **kwargs)]: the validation; the instance itself
    is made by [Partial_call] below. *)
Definition Partial_new (cls : partial_class) (kwargs : entries) : res unit :=
  match origin_type cls with
  | Some (TModel c) =>
      let model_fields := cls_hints c in
      match invalid_fields model_fields kwargs with
      | [] => Ok ()
      | invalid => Raise (ValueError (error_msg c invalid))
      end
  | _ => Ok ()
  end.

(** [cls( **kwargs )]: [__new__], then [__init__] stores [kwargs] as
    [self.data]. *)
Definition Partial_call (cls : partial_class) (kwargs : entries) : res val :=
  do _ <- Partial_new cls kwargs;
  Ok (VPartial cls kwargs).


(** [Partial.from_dict(data)], on the class [cls]. *)
Definition from_dict (cls : partial_class) (data : entries) : res val :=
  Partial_call cls data.

(** ** [_merge_lists] and [_merge_dicts] *)

Definition _merge_lists (original partial : list val) : list val := partial.

(** [_merge_dicts(original, partial)].  The loop over [partial.items()]
    carries [result], which starts as the copy of [original]; the recursive
    call on the rest of [partial] is the rest of the loop. *)
Fixpoint _merge_dicts (original partial : entries) {struct partial} : entries :=
  let result := deepcopy original in
  match partial with
  | ENil => result
  | ECons key value rest =>
      let result :=
        match dict_get key result, value with
        | Some (VDict r), VDict p => dict_set key (VDict (_merge_dicts r p)) result
        | _, _ => dict_set key value result
        end in
      _merge_dicts result rest
  end.

(** ** [Partial.value] *)

(** The body of the loop of [_partial_base_model].  [self_value] is
    [Partial.value] on a partial held in [self.data]; [nested_value d c fs]
    is [nested_partial.value(original_value)] for the partial made from the
    dict [d] and the nested record of class [c] with attributes [fs]. *)
Definition _partial_base_model_body
    (self_value : val → val → res val)
    (nested_value : entries → model_class → entries → res val)
    (key : string) (value : val) (result : entries) : res entries :=
  match dict_get key result with
  | None => Ok result
  | Some original_value =>
      if is_partial value
         && (is_dict original_value || is_list original_value
             || is_model original_value)
      then
        do x <- self_value value original_value;
        Ok (dict_set key x result)
      else
        match original_value, value with
        | VList o, VList p => Ok (dict_set key (VList (_merge_lists o p)) result)
        | VDict o, VDict p => Ok (dict_set key (VDict (_merge_dicts o p)) result)
        | VModel nested_class nested_fields, VDict d =>
            do nested_partial <-
              Partial_call (create_typed_partial (TModel nested_class)) d;
            do x <- nested_value d nested_class nested_fields;
            Ok (dict_set key x result)
        | _, _ => Ok (dict_set key value result)
        end
  end.

(** The body of the loop of [_partial_dict]. *)
Definition _partial_dict_body (self_value : val → val → res val)
    (key : string) (value : val) (result : entries) : res entries :=
  match dict_get key result with
  | Some original_value =>
      if is_partial value then
        do x <- self_value value original_value;
        Ok (dict_set key x result)
      else
        match original_value, value with
        | VList o, VList p => Ok (dict_set key (VList (_merge_lists o p)) result)
        | VDict o, VDict p => Ok (dict_set key (VDict (_merge_dicts o p)) result)
        | _, _ => Ok (dict_set key value result)
        end
  | None => Ok (dict_set key value result)
  end.

(** The body of the loop of [_partial_list], with its [try] and
    [except (ValueError, IndexError): continue]. *)
Definition _partial_list_body (self_value : val → val → res val)
    (idx_str : string) (value : val) (result : list val) : res (list val) :=
  try_except
    (do idx <- py_int idx_str;
     if ((0 <=? idx) && (idx <? Z.of_nat (length result)))%Z then
       do original_value <- list_getitem result idx;
       if is_partial value then
         do x <- self_value value original_value;
         Ok (<[Z.to_nat idx := x]> result)
       else
         match original_value, value with
         | VList o, VList p =>
             Ok (<[Z.to_nat idx := VList (_merge_lists o p)]> result)
         | VDict o, VDict p =>
             Ok (<[Z.to_nat idx := VDict (_merge_dicts o p)]> result)
         | _, _ => Ok (<[Z.to_nat idx := value]> result)
         end
     else Ok result)
    (Ok result).

(** [value(self, original)] and the three methods it dispatches to; the
    methods take [self.data]. *)
Fixpoint value (self : val) (original : val) {struct self} : res val :=
  match self with
  | VPartial _ data =>
      match original with
      | VModel c fields => _partial_base_model data c fields
      | VDict d => do r <- _partial_dict data d; Ok (VDict r)
      | VList l => do r <- _partial_list data l; Ok (VList r)
      | _ => Ok (default original (dict_get "value" data))
      end
  | _ => Raise (AttributeError "value")
  end

with _partial_base_model (data : entries) (c : model_class) (fields : entries)
    {struct data} : res val :=
  let result := deepcopy fields in
  do result <-
    for_items (_partial_base_model_body value _partial_base_model) data result;
  Ok (VModel c result)

with _partial_dict (data : entries) (original : entries) {struct data}
    : res entries :=
  let result := deepcopy original in
  for_items (_partial_dict_body value) data result

with _partial_list (data : entries) (original : list val) {struct data}
    : res (list val) :=
  if_in "items" (Ok original)
    (λ partial_items,
       let result := deepcopy original in
       match partial_items with
       | VDict d => for_items (_partial_list_body value) d result
       | VList l => Ok l
       | _ => Ok result
       end)
    data.

(** * Notions used in the statements *)

(** The error of [__new__]: for a model [c] and keyword arguments [kwargs]
    with at least one key outside the type hints of [c], the [ValueError]
    whose message names [c] and lists those keys. *)
Definition validation_error (e : exn) : Prop :=
  ∃ c kwargs,
    invalid_fields (cls_hints c) kwargs ≠ []
    ∧ e = ValueError (error_msg c (invalid_fields (cls_hints c) kwargs)).

(** A computation that raises nothing but validation errors. *)
Definition raises_only_validation {A : Type} (m : res A) : Prop :=
  ∀ e, m = Raise e → validation_error e.

(** The three loops over the entries [d], from any [result]: the loops of
    [_partial_base_model] and [_partial_dict] raise nothing but validation
    errors, the loop of [_partial_list] raises nothing and keeps the
    length. *)
Definition loops_ok (d : entries) : Prop :=
  (∀ result, raises_only_validation
     (for_items (_partial_base_model_body value _partial_base_model) d result))
  ∧ (∀ result, raises_only_validation
       (for_items (_partial_dict_body value) d result))
  ∧ (∀ result, ∃ r, for_items (_partial_list_body value) d result = Ok r
                    ∧ length r = length result).

(** What the induction on values carries: a partial raises nothing but
    validation errors, and the loops over a dict are [loops_ok]. *)
Definition value_ok (v : val) : Prop :=
  (is_partial v = true → ∀ original, raises_only_validation (value v original))
  ∧ (∀ d, v = VDict d → loops_ok d).

(** An override that is neither a mapping nor a partial. *)
Definition plain (v : val) : bool := negb (is_dict v || is_partial v).

(** The entries of a dict literal. *)
Definition dict_of (l : list (string * val)) : entries :=
  foldr (λ kv d, ECons kv.1 kv.2 d) ENil l.

(** The records, patches and partials of the examples. *)
Definition Address : model_class := ModelClass "Address" ["street"; "city"].
Definition User : model_class := ModelClass "User" ["name"; "addr"].

Definition address_A_X : val :=
  VModel Address (dict_of [("street", VStr "A"); ("city", VStr "X")]).
Definition user_n : val :=
  VModel User (dict_of [("name", VStr "n"); ("addr", address_A_X)]).

Definition patch_addr_zip : entries :=
  dict_of [("addr", VDict (dict_of [("zip", VStr "Y")]))].

(** Entries followed by entries. *)
Fixpoint eapp (d1 d2 : entries) : entries :=
  match d1 with
  | ENil => d2
  | ECons k v rest => ECons k v (eapp rest d2)
  end.

Definition partial_value_1 : val :=
  VPartial Partial (dict_of [("value", VInt 1)]).

(** One step of the loop of [_merge_dicts]. *)
Definition merge_step (key : string) (value : val) (result : entries) : entries :=
  match dict_get key result, value with
  | Some (VDict r), VDict p => dict_set key (VDict (_merge_dicts r p)) result
  | _, _ => dict_set key value result
  end.

(** A value that is no list, dict, record or partial. *)
Definition is_scalar (v : val) : bool :=
  match v with
  | VNone | VBool _ | VInt _ | VStr _ => true
  | _ => false
  end.


(** The index an entry of the [items] mapping targets in a list of length
    [n], if any. *)
Definition target (idx_str : string) (n : nat) : option nat :=
  match py_int idx_str with
  | Ok idx =>
      if ((0 <=? idx) && (idx <? Z.of_nat n))%Z then Some (Z.to_nat idx) else None
  | Raise _ => None
  end.

Definition partial_addr_zip : val := VPartial Partial patch_addr_zip.

(** Dicts whose keys are distinct, also in the dicts they hold as values. *)
Fixpoint dicts_wf (v : val) : Prop :=
  match v with
  | VDict d => entries_wf d
  | _ => True
  end
with entries_wf (d : entries) : Prop :=
  match d with
  | ENil => True
  | ECons k v rest => (k ∉ keys rest) ∧ dicts_wf v ∧ entries_wf rest
  end.

(** * The store layer *)

(** The same methods as programs over a heap of objects.  Scalars are
    immediate; lists, dicts, records and partials are objects that values
    reference, so that two values can share an object and an assignment is
    seen through every reference to it. *)
Module Store.

Abbreviation loc := nat.

Inductive sval :=
| SNone
| SBool (b : bool)
| SInt (z : Z)
| SStr (s : string)
| SRef (l : loc).

(** A partial made by [__new__] has no [data] attribute until [__init__]
    (or the reconstruction of a deep copy) sets it. *)
Inductive obj :=
| OList (xs : list sval)
| ODict (d : list (string * sval))
| OModel (c : model_class) (attrs : list (string * sval))
| OPartial (cls : partial_class) (data : option sval).

Abbreviation heap := (list obj).

(** A call ends with a value, with a Python exception, with a
    [TypeError] (an operation on an object of the wrong kind), or with
    the recursion limit reached. *)
Inductive failure :=
| Exn (e : exn)
| TypeError
| RecursionError.

Definition M (A : Type) : Type := heap → (A + failure) * heap.

Definition ret {A : Type} (a : A) : M A := λ h, (inl a, h).
Definition fail {A : Type} (f : failure) : M A := λ h, (inr f, h).
Definition mbind {A B : Type} (m : M A) (k : A → M B) : M B :=
  λ h, match m h with
       | (inl a, h') => k a h'
       | (inr f, h') => (inr f, h')
       end.

Notation "'run' x <- m ; k" := (mbind m (fun x => k))
  (at level 10, x name, m at level 100, k at level 200).

(** The heap primitives: a new object gets the next address; reading and
    writing need an address in use. *)
Definition alloc (o : obj) : M loc := λ h, (inl (length h), (h ++ [o])%list).
Definition read (l : loc) : M obj :=
  λ h, match h !! l with
       | Some o => (inl o, h)
       | None => (inr TypeError, h)
       end.
Definition write (l : loc) (o : obj) : M unit :=
  λ h, if decide (l < length h)%nat then (inl (), <[l := o]> h)
       else (inr TypeError, h).

(** The object a value references. *)
Definition deref (v : sval) : M obj :=
  match v with
  | SRef l => read l
  | _ => fail TypeError
  end.

(** [for a in xs: s = body a s] *)
Definition for_list {A S : Type} (body : A → S → M S) : list A → S → M S :=
  fix go (xs : list A) (s : S) : M S :=
    match xs with
    | [] => ret s
    | a :: rest => run s' <- body a s; go rest s'
    end.

(** [try: body  except (ValueError, IndexError): handler] *)
Definition mtry {A : Type} (body : M A) (handler : M A) : M A :=
  λ h, match body h with
       | (inr (Exn (ValueError _)), h') => handler h'
       | (inr (Exn IndexError), h') => handler h'
       | r => r
       end.

(** ** Operations on objects *)

Fixpoint sget (key : string) (d : list (string * sval)) : option sval :=
  match d with
  | [] => None
  | (k, v) :: rest => if decide (k = key) then Some v else sget key rest
  end.

Fixpoint sset (key : string) (x : sval) (d : list (string * sval))
  : list (string * sval) :=
  match d with
  | [] => [(key, x)]
  | (k, v) :: rest =>
      if decide (k = key) then (k, x) :: rest else (k, v) :: sset key x rest
  end.

Definition kind_is (test : obj → bool) (v : sval) : M bool :=
  match v with
  | SRef l => run o <- read l; ret (test o)
  | _ => ret false
  end.

Definition isinstance_dict : sval → M bool :=
  kind_is (λ o, match o with ODict _ => true | _ => false end).
Definition isinstance_list : sval → M bool :=
  kind_is (λ o, match o with OList _ => true | _ => false end).
Definition isinstance_model : sval → M bool :=
  kind_is (λ o, match o with OModel _ _ => true | _ => false end).
Definition isinstance_partial : sval → M bool :=
  kind_is (λ o, match o with OPartial _ _ => true | _ => false end).

(** [d.items()], read when the loop starts. *)
Definition dict_items (d : sval) : M (list (string * sval)) :=
  run o <- deref d;
  match o with
  | ODict entries => ret entries
  | _ => fail TypeError
  end.

(** [d.get(key)] *)
Definition dict_lookup (d : sval) (key : string) : M (option sval) :=
  run entries <- dict_items d; ret (sget key entries).

(** [d[key] = x] *)
Definition dict_setitem (d : sval) (key : string) (x : sval) : M unit :=
  match d with
  | SRef l =>
      run o <- read l;
      match o with
      | ODict entries => write l (ODict (sset key x entries))
      | _ => fail TypeError
      end
  | _ => fail TypeError
  end.

(** [getattr(m, key)] when [hasattr(m, key)], on a record. *)
Definition model_lookup (m : sval) (key : string) : M (option sval) :=
  run o <- deref m;
  match o with
  | OModel _ attrs => ret (sget key attrs)
  | _ => fail TypeError
  end.

(** [setattr(m, key, x)] *)
Definition model_setattr (m : sval) (key : string) (x : sval) : M unit :=
  match m with
  | SRef l =>
      run o <- read l;
      match o with
      | OModel c attrs => write l (OModel c (sset key x attrs))
      | _ => fail TypeError
      end
  | _ => fail TypeError
  end.

Definition list_items (xs : sval) : M (list sval) :=
  run o <- deref xs;
  match o with
  | OList elems => ret elems
  | _ => fail TypeError
  end.

(** [xs[idx]] for [0 <= idx] *)
Definition list_getitem (xs : sval) (idx : Z) : M sval :=
  run elems <- list_items xs;
  match elems !! Z.to_nat idx with
  | Some x => ret x
  | None => fail (Exn IndexError)
  end.

(** [xs[idx] = x] for [0 <= idx] *)
Definition list_setitem (xs : sval) (idx : Z) (x : sval) : M unit :=
  match xs with
  | SRef l =>
      run o <- read l;
      match o with
      | OList elems =>
          if decide (Z.to_nat idx < length elems)%nat
          then write l (OList (<[Z.to_nat idx := x]> elems))
          else fail (Exn IndexError)
      | _ => fail TypeError
      end
  | _ => fail TypeError
  end.

(** [xs.append(x)] *)
Definition list_append (xs : sval) (x : sval) : M unit :=
  match xs with
  | SRef l =>
      run o <- read l;
      match o with
      | OList elems => write l (OList (elems ++ [x])%list)
      | _ => fail TypeError
      end
  | _ => fail TypeError
  end.

(** [self.data] *)
Definition partial_data (self : sval) : M sval :=
  run o <- deref self;
  match o with
  | OPartial _ (Some data) => ret data
  | _ => fail (Exn (AttributeError "data"))
  end.

(** ** [copy.deepcopy] *)

(** The memo of a deep copy: the copy made for each object met so far. *)
Abbreviation memo := (list (loc * loc)).

Fixpoint memo_get (l : loc) (m : memo) : option loc :=
  match m with
  | [] => None
  | (k, y) :: rest => if decide (k = l) then Some y else memo_get l rest
  end.

(** [copy.deepcopy(x, memo)].  A scalar is its own copy and an object
    already in the memo is copied once.  A list and a dict are created
    empty, memoised, and filled with the copies of their elements; a record
    is created with the copy of its attributes; a partial is created by
    [__new__], memoised, and then given the copy of its state.  [fuel]
    bounds the depth of the recursion. *)
Fixpoint deepcopy_memo (fuel : nat) (x : sval) (m : memo) : M (sval * memo) :=
  match x with
  | SRef l =>
      match memo_get l m with
      | Some y => ret (SRef y, m)
      | None =>
          match fuel with
          | O => fail RecursionError
          | S fuel' =>
              run o <- read l;
              match o with
              | OList elems =>
                  run y <- alloc (OList []);
                  run m' <-
                    for_list
                      (λ a m,
                         run cm <- deepcopy_memo fuel' a m;
                         run _ <- list_append (SRef y) cm.1;
                         ret cm.2)
                      elems ((l, y) :: m);
                  ret (SRef y, m')
              | ODict entries =>
                  run y <- alloc (ODict []);
                  run m' <-
                    for_list
                      (λ kv m,
                         run cm <- deepcopy_memo fuel' kv.2 m;
                         run _ <- dict_setitem (SRef y) kv.1 cm.1;
                         ret cm.2)
                      entries ((l, y) :: m);
                  ret (SRef y, m')
              | OModel c attrs =>
                  run am <-
                    for_list
                      (λ kv am,
                         run cm <- deepcopy_memo fuel' kv.2 am.2;
                         ret ((am.1 ++ [(kv.1, cm.1)])%list, cm.2))
                      attrs ([], m);
                  run y <- alloc (OModel c am.1);
                  ret (SRef y, (l, y) :: am.2)
              | OPartial cls data =>
                  run y <- alloc (OPartial cls None);
                  match data with
                  | Some d =>
                      run cm <- deepcopy_memo fuel' d ((l, y) :: m);
                      run _ <- write y (OPartial cls (Some cm.1));
                      ret (SRef y, cm.2)
                  | None => ret (SRef y, (l, y) :: m)
                  end
              end
          end
      end
  | _ => ret (x, m)
  end.

(** [copy.deepcopy(x)] *)
Definition deepcopy (fuel : nat) (x : sval) : M sval :=
  run cm <- deepcopy_memo fuel x []; ret cm.1.

(** ** The class [Partial] *)

Definition lift {A : Type} (r : res A) : M A :=
  match r with
  | Ok a => ret a
  | Raise e => fail (Exn e)
  end.

(** [Partial.__new__(cls, **kwargs)]: the validation, then
    [super().__new__(cls)]. *)
Definition Partial_new (cls : partial_class) (kwargs : list (string * sval))
  : M sval :=
  run _ <-
    match origin_type cls with
    | Some (TModel c) =>
        let model_fields := cls_hints c in
        match filter (λ field, field ∉ model_fields) kwargs.*1 with
        | [] => ret ()
        | invalid => fail (Exn (ValueError (error_msg c invalid)))
        end
    | _ => ret ()
    end;
  run instance <- alloc (OPartial cls None);
  ret (SRef instance).

(** [Partial.__init__(self, **kwargs)]: [self.data = kwargs] *)
Definition Partial_init (self kwargs : sval) : M unit :=
  match self with
  | SRef l =>
      run o <- read l;
      match o with
      | OPartial cls _ => write l (OPartial cls (Some kwargs))
      | _ => fail TypeError
      end
  | _ => fail TypeError
  end.

(** [cls( **kwargs )]: the keyword arguments make a new dict. *)
Definition Partial_call (cls : partial_class) (kwargs : list (string * sval))
  : M sval :=
  run kw <- alloc (ODict kwargs);
  run instance <- Partial_new cls kwargs;
  run _ <- Partial_init instance (SRef kw);
  ret instance.

(** [type(m)] for a record *)
Definition class_of (m : sval) : M model_class :=
  run o <- deref m;
  match o with
  | OModel c _ => ret c
  | _ => fail TypeError
  end.

(** ** The merges *)

Definition _merge_lists (original partial : sval) : M sval := ret partial.

Fixpoint _merge_dicts (fuel : nat) (original partial : sval) : M sval :=
  match fuel with
  | O => fail RecursionError
  | S fuel' =>
      run result <- deepcopy fuel' original;
      run entries <- dict_items partial;
      run _ <-
        for_list
          (λ kv (_ : unit),
             let key := kv.1 in
             let value := kv.2 in
             run current <- dict_lookup result key;
             match current with
             | Some r =>
                 run rd <- isinstance_dict r;
                 run vd <- isinstance_dict value;
                 if rd && vd then
                   run x <- _merge_dicts fuel' r value;
                   dict_setitem result key x
                 else dict_setitem result key value
             | None => dict_setitem result key value
             end)
          entries ();
      ret result
  end.

(** ** [Partial.value] *)

Section methods.
(** The recursion limit left, and [Partial.value] within it. *)
Variable fuel : nat.
Variable self_value : sval → sval → M sval.

Definition _partial_base_model (data original : sval) : M sval :=
  run result <- deepcopy fuel original;
  run entries <- dict_items data;
  run _ <-
    for_list
      (λ kv (_ : unit),
         let key := kv.1 in
         let value := kv.2 in
         run current <- model_lookup result key;
         match current with
         | None => ret ()
         | Some original_value =>
             run vp <- isinstance_partial value;
             run od <- isinstance_dict original_value;
             run ol <- isinstance_list original_value;
             run om <- isinstance_model original_value;
             run vl <- isinstance_list value;
             run vd <- isinstance_dict value;
             if vp && (od || ol || om) then
               run x <- self_value value original_value;
               model_setattr result key x
             else if ol && vl then
               run x <- _merge_lists original_value value;
               model_setattr result key x
             else if od && vd then
               run x <- _merge_dicts fuel original_value value;
               model_setattr result key x
             else if om && vd then
               run nested_class <- class_of original_value;
               run kwargs <- dict_items value;
               run nested_partial <-
                 Partial_call (create_typed_partial (TModel nested_class)) kwargs;
               run x <- self_value nested_partial original_value;
               model_setattr result key x
             else model_setattr result key value
         end)
      entries ();
  ret result.

Definition _partial_dict (data original : sval) : M sval :=
  run result <- deepcopy fuel original;
  run entries <- dict_items data;
  run _ <-
    for_list
      (λ kv (_ : unit),
         let key := kv.1 in
         let value := kv.2 in
         run current <- dict_lookup result key;
         match current with
         | Some original_value =>
             run vp <- isinstance_partial value;
             run od <- isinstance_dict original_value;
             run ol <- isinstance_list original_value;
             run vl <- isinstance_list value;
             run vd <- isinstance_dict value;
             if vp then
               run x <- self_value value original_value;
               dict_setitem result key x
             else if ol && vl then
               run x <- _merge_lists original_value value;
               dict_setitem result key x
             else if od && vd then
               run x <- _merge_dicts fuel original_value value;
               dict_setitem result key x
             else dict_setitem result key value
         | None => dict_setitem result key value
         end)
      entries ();
  ret result.

Definition _partial_list (data original : sval) : M sval :=
  run self_data <- dict_items data;
  match sget "items" self_data with
  | None => ret original
  | Some partial_items =>
      run result <- deepcopy fuel original;
      run pd <- isinstance_dict partial_items;
      run pl <- isinstance_list partial_items;
      if pd then
        run entries <- dict_items partial_items;
        run _ <-
          for_list
            (λ kv (_ : unit),
               let idx_str := kv.1 in
               let value := kv.2 in
               mtry
                 (run idx <- lift (py_int idx_str);
                  run elems <- list_items result;
                  if ((0 <=? idx) && (idx <? Z.of_nat (length elems)))%Z then
                    run original_value <- list_getitem result idx;
                    run vp <- isinstance_partial value;
                    run od <- isinstance_dict original_value;
                    run ol <- isinstance_list original_value;
                    run vl <- isinstance_list value;
                    run vd <- isinstance_dict value;
                    if vp then
                      run x <- self_value value original_value;
                      list_setitem result idx x
                    else if ol && vl then
                      run x <- _merge_lists original_value value;
                      list_setitem result idx x
                    else if od && vd then
                      run x <- _merge_dicts fuel original_value value;
                      list_setitem result idx x
                    else list_setitem result idx value
                  else ret ())
                 (ret ()))
            entries ();
        ret result
      else if pl then ret partial_items
      else ret result
  end.

(** The body of [value(self, original)]. *)
Definition value_body (self original : sval) : M sval :=
  run data <- partial_data self;
  run om <- isinstance_model original;
  run od <- isinstance_dict original;
  run ol <- isinstance_list original;
  if om then _partial_base_model data original
  else if od then _partial_dict data original
  else if ol then _partial_list data original
  else
    run self_data <- dict_items data;
    ret (default original (sget "value" self_data)).
End methods.

Fixpoint value (fuel : nat) (self original : sval) : M sval :=
  match fuel with
  | O => fail RecursionError
  | S fuel' => value_body fuel' (value fuel') self original
  end.

(** ** Reading a value back from the heap *)

Definition reify_entries (reify_value : sval → option val)
  : list (string * sval) → option entries :=
  fix go (d : list (string * sval)) : option entries :=
    match d with
    | [] => Some ENil
    | (k, x) :: rest =>
        x' ← reify_value x; rest' ← go rest; Some (ECons k x' rest')
    end.

(** The tree a store value stands for, down to [depth] objects deep. *)
Fixpoint reify (depth : nat) (h : heap) (v : sval) : option val :=
  match v with
  | SNone => Some VNone
  | SBool b => Some (VBool b)
  | SInt z => Some (VInt z)
  | SStr s => Some (VStr s)
  | SRef l =>
      match depth with
      | O => None
      | S depth' =>
          o ← h !! l;
          match o with
          | OList elems => VList <$> mapM (reify depth' h) elems
          | ODict d => VDict <$> reify_entries (reify depth' h) d
          | OModel c attrs => VModel c <$> reify_entries (reify depth' h) attrs
          | OPartial cls (Some data) =>
              d ← reify depth' h data;
              match d with VDict e => Some (VPartial cls e) | _ => None end
          | OPartial cls None => None
          end
      end
  end.

(** Storing a tree: every dict, list, record and partial of the tree
    becomes a new object. *)
Fixpoint store (v : val) : M sval :=
  match v with
  | VNone => ret SNone
  | VBool b => ret (SBool b)
  | VInt z => ret (SInt z)
  | VStr s => ret (SStr s)
  | VList l =>
      run elems <- for_list (λ x acc, run x' <- store x; ret (acc ++ [x'])%list) l [];
      run y <- alloc (OList elems); ret (SRef y)
  | VDict d =>
      run entries <- store_entries d;
      run y <- alloc (ODict entries); ret (SRef y)
  | VModel c fields =>
      run attrs <- store_entries fields;
      run y <- alloc (OModel c attrs); ret (SRef y)
  | VPartial cls data =>
      run entries <- store_entries data;
      run kw <- alloc (ODict entries);
      run y <- alloc (OPartial cls (Some (SRef kw))); ret (SRef y)
  end
with store_entries (d : entries) : M (list (string * sval)) :=
  match d with
  | ENil => ret []
  | ECons k v rest =>
      run x <- store v;
      run rest' <- store_entries rest;
      ret ((k, x) :: rest')
  end.

End Store.

(** ** Running the store layer on trees *)

(** [self.value(original)] run in the store layer on the stored trees: the
    tree of the result, and the tree of the original after the call. *)
Definition run_value (fuel : nat) (self original : val)
  : option val * option val :=
  match
    Store.mbind (Store.store self) (λ s,
    Store.mbind (Store.store original) (λ o, Store.ret (s, o))) []
  with
  | (inl (s, o), h) =>
      let r := Store.value fuel s o h in
      (match r.1 with
       | inl x => Store.reify fuel r.2 x
       | inr _ => None
       end,
       Store.reify fuel r.2 o)
  | _ => (None, None)
  end.

Definition returned (r : res val) : option val :=
  match r with
  | Ok v => Some v
  | Raise _ => None
  end.

Definition spec_examples : list (val * val) :=
  [ (VPartial Partial (dict_of [("name", VStr "b")]),
     VModel (ModelClass "R" ["name"; "age"])
       (dict_of [("name", VStr "a"); ("age", VInt 1)]));
    (VPartial Partial (dict_of [("y", VInt 2)]),
     VModel (ModelClass "R" ["x"]) (dict_of [("x", VInt 1)]));
    (VPartial Partial (dict_of [("y", VInt 2)]), VDict (dict_of [("x", VInt 1)]));
    (VPartial Partial (dict_of [("a", VDict (dict_of [("b", VInt 99)]))]),
     VDict (dict_of [("a", VDict (dict_of [("b", VInt 1); ("c", VInt 2)]))]));
    (VPartial Partial (dict_of [("items", VList [VInt 9; VInt 9])]),
     VList [VInt 1; VInt 2; VInt 3]);
    (VPartial Partial
       (dict_of [("items", VDict (dict_of [("1", VInt 99); ("5", VInt 7)]))]),
     VList [VInt 10; VInt 20; VInt 30]);
    (VPartial Partial (dict_of [("addr", VDict (dict_of [("city", VStr "Y")]))]),
     user_n);
    (VPartial Partial patch_addr_zip, user_n);
    (VPartial Partial (ECons "k" partial_value_1 ENil), VDict ENil);
    (VPartial Partial
       (dict_of [("items", VDict (dict_of [("0", partial_addr_zip)]))]),
     VList [user_n]);
    (VPartial Partial (dict_of [("value", VInt 5)]), VInt 3);
    (VPartial Partial ENil, user_n);
    (VPartial Partial ENil, VDict (dict_of [("x", VList [VInt 1])]));
    (VPartial Partial ENil, VList [VInt 1; VDict ENil]) ].

(** * utils.py *)

(** The helpers of [utils.py] that compute on sequences, dicts and calls. *)
Module Utils.

(** ** Built-ins *)

(** [list(range(start, stop, step))] *)
Definition py_range (start stop step : Z) : res (list Z) :=
  if decide (step = 0) then Raise (ValueError "range() arg 3 must not be zero")
  else if decide (0 < step) then
    Ok ((λ i, start + Z.of_nat i * step)
          <$> seq 0 (Z.to_nat ((stop - start + step - 1) / step)))
  else
    Ok ((λ i, start + Z.of_nat i * step)
          <$> seq 0 (Z.to_nat ((start - stop - step - 1) / (- step)))).

(** A bound of a slice, brought into [0..len]: a negative bound counts
    from the end. *)
Definition slice_bound (len i : Z) : Z :=
  if decide (i < 0) then Z.max (i + len) 0 else Z.min i len.

(** [s[lo:hi]] *)
Definition py_slice {A : Type} (s : list A) (lo hi : Z) : list A :=
  let len := Z.of_nat (length s) in
  let lo' := slice_bound len lo in
  let hi' := slice_bound len hi in
  take (Z.to_nat (hi' - lo')) (drop (Z.to_nat lo') s).

(** ** [chunker] *)

(** [chunker(seq, size)], as the list of the chunks the generator yields.
    The [range] is evaluated when the generator is made, so a zero [size]
    raises at the call. *)
Definition chunker {A : Type} (seq : list A) (size : Z) : res (list (list A)) :=
  do positions <- py_range 0 (Z.of_nat (length seq)) size;
  Ok ((λ pos, py_slice seq pos (pos + size)) <$> positions).

(** ** [coalesce] *)

Fixpoint coalesce (args : list val) : res val :=
  match args with
  | [] => Raise (ValueError "No arguments provided")
  | arg :: rest =>
      match arg with
      | VNone => coalesce rest
      | _ => Ok arg
      end
  end.

(** ** [merge_dicts] *)

(** [for k, v in d.items(): result[k] = v] *)
Fixpoint update (result d : entries) : entries :=
  match d with
  | ENil => result
  | ECons k v rest => update (dict_set k v result) rest
  end.

(** [{k: v for d in dicts for k, v in d.items()}] *)
Definition merge_dicts (dicts : list entries) : entries :=
  foldl update ENil dicts.

(** ** [retry_handler] *)

(** The exceptions a wrapped function raises: [QuipubaseException], or any
    other exception, given by the name of its class and its message. *)
Inductive exc :=
| QuipubaseException (detail : string) (status_code : Z)
| OtherException (name msg : string).


Section retry_handler.
Context {W R : Type}.
(** A call of [func] in the world [w]: its outcome and the world after. *)
Variable func : W → (R + exc) * W.
Variable retries : Z.




End retry_handler.



(** ** [singleton] *)

Section singleton.
Context {Args I : Type}.
(** [cls( *args, **kwargs )]: the instance, or the exception it raises. *)
Variable cls : Args → I + exc.

(** One call of the wrapper; the state is [instances.get(cls)]. *)
Definition singleton_wrapper (args : Args) (instances : option I)
  : (I + exc) * option I :=
  match instances with
  | None =>
      match cls args with
      | inl instance => (inl instance, Some instance)
      | inr e => (inr e, None)
      end
  | Some instance => (inl instance, Some instance)
  end.

(** Calls of the wrapper in a row: their outcomes and the state left. *)
Fixpoint singleton_calls (calls : list Args) (instances : option I)
  : list (I + exc) * option I :=
  match calls with
  | [] => ([], instances)
  | args :: rest =>
      let r := singleton_wrapper args instances in
      let rs := singleton_calls rest r.2 in
      (r.1 :: rs.1, rs.2)
  end.
End singleton.

End Utils.

(** * Properties of the value layer *)

(** ** Unfolding equations *)

Lemma bind_Ok {A B : Type} (m : res A) (k : A → res B) (b : B) :
  bind m k = Ok b → ∃ a, m = Ok a ∧ k a = Ok b.
Proof. destruct m as [a|e]; simpl; [eauto | discriminate]. Qed.

Lemma bind_Raise {A B : Type} (m : res A) (k : A → res B) (e : exn) :
  bind m k = Raise e → m = Raise e ∨ ∃ a, m = Ok a ∧ k a = Raise e.
Proof. destruct m as [a|e']; simpl; [eauto | intros [= ->]; auto]. Qed.

Lemma if_in_dict_get {R : Type} key (absent : R) present d :
  if_in key absent present d =
  match dict_get key d with None => absent | Some v => present v end.
Proof.
  induction d as [|k v rest IH]; simpl; [done|].
  destruct (decide (k = key)); [done | apply IH].
Qed.

Lemma value_model cls data c fields :
  value (VPartial cls data) (VModel c fields) = _partial_base_model data c fields.
Proof. done. Qed.

Lemma value_dict cls data d :
  value (VPartial cls data) (VDict d) = do r <- _partial_dict data d; Ok (VDict r).
Proof. done. Qed.

Lemma value_list cls data l :
  value (VPartial cls data) (VList l) = do r <- _partial_list data l; Ok (VList r).
Proof. done. Qed.

Lemma _partial_base_model_eq data c fields :
  _partial_base_model data c fields =
  do result <-
    for_items (_partial_base_model_body value _partial_base_model) data fields;
  Ok (VModel c result).
Proof. destruct data; reflexivity. Qed.

Lemma _partial_dict_eq data original :
  _partial_dict data original = for_items (_partial_dict_body value) data original.
Proof. destruct data; reflexivity. Qed.

Lemma _partial_list_eq data original :
  _partial_list data original =
  match dict_get "items" data with
  | None => Ok original
  | Some (VDict d) => for_items (_partial_list_body value) d original
  | Some (VList l) => Ok l
  | Some _ => Ok original
  end.
Proof.
  transitivity
    (if_in "items" (Ok original)
       (λ partial_items,
          match partial_items with
          | VDict d => for_items (_partial_list_body value) d original
          | VList l => Ok l
          | _ => Ok original
          end) data).
  - destruct data; reflexivity.
  - rewrite if_in_dict_get. by destruct (dict_get "items" data) as [[]|].
Qed.

Lemma for_items_cons {S : Type} (body : string → val → S → res S) key v rest result :
  for_items body (ECons key v rest) result =
  do result' <- body key v result; for_items body rest result'.
Proof. done. Qed.

(** ** Dictionaries *)

Lemma dict_get_set_eq key x d : dict_get key (dict_set key x d) = Some x.
Proof.
  induction d as [|k v rest IH]; simpl.
  - by rewrite decide_True.
  - destruct (decide (k = key)) as [->|Hne]; simpl.
    + by rewrite decide_True.
    + by rewrite decide_False.
Qed.

Lemma dict_get_set_ne key key' x d :
  key ≠ key' → dict_get key' (dict_set key x d) = dict_get key' d.
Proof.
  intros Hne. induction d as [|k v rest IH]; simpl.
  - by rewrite decide_False.
  - destruct (decide (k = key)) as [->|Hk]; simpl.
    + by rewrite !decide_False.
    + destruct (decide (k = key')); [done | apply IH].
Qed.

Lemma dict_get_None key d : dict_get key d = None ↔ key ∉ keys d.
Proof.
  induction d as [|k v rest IH]; simpl.
  - split; [intros _; apply not_elem_of_nil | done].
  - rewrite not_elem_of_cons. destruct (decide (k = key)) as [->|Hne].
    + split; [done | intros [? _]; done].
    + rewrite IH. split; [intros ?; split; [by intros -> | done] | by intros [_ ?]].
Qed.


Lemma dict_set_absent key x d :
  dict_get key d = None → items (dict_set key x d) = (items d ++ [(key, x)])%list.
Proof.
  induction d as [|k v rest IH]; simpl; [done|].
  destruct (decide (k = key)); [done|]. intros H. simpl. f_equal. by apply IH.
Qed.

(** ** The identity patch *)

(** C2. Applying a partial with no override ([Partial()], whatever its
    class) to a value [v] returns [v]: the record, the mapping or the
    sequence comes back structurally equal to the original (and so does a
    scalar). *)
Theorem identity_patch (cls : partial_class) (v : val) :
  value (VPartial cls ENil) v = Ok v.
Proof.
  destruct v as [| | | |l|d|c fields|cls' data]; try reflexivity.
Qed.

(** ** Sequences without a usable [items] directive *)

(** C9. For every sequence [s]: when the patch has no [items] entry, or
    when its [items] value is neither a mapping nor a sequence, [value]
    returns a sequence equal to [s] and raises nothing. *)
Theorem malformed_items_unchanged (cls : partial_class) (data : entries)
    (s : list val) :
  (dict_get "items" data = None
   ∨ ∃ x, dict_get "items" data = Some x ∧ is_dict x = false ∧ is_list x = false) →
  value (VPartial cls data) (VList s) = Ok (VList s).
Proof.
  intros H. rewrite value_list, _partial_list_eq.
  destruct H as [-> | (x & -> & Hd & Hl)]; [done|].
  by destruct x.
Qed.

Lemma malformed_items_unchanged_witness :
  value (VPartial Partial (ECons "items" (VInt 3) ENil))
        (VList [VInt 1; VStr "a"])
  = Ok (VList [VInt 1; VStr "a"]).
Proof.
  apply malformed_items_unchanged. right. exists (VInt 3). done.
Defined.

(** ** Subscripting the generic class *)

Lemma origin_type_Partial : origin_type Partial = None.
Proof. reflexivity. Qed.




(** ** Induction on values through the entries they hold *)

Section val_deep_ind.
Variable P : val → Prop.
Hypothesis HNone : P VNone.
Hypothesis HBool : ∀ b, P (VBool b).
Hypothesis HInt : ∀ z, P (VInt z).
Hypothesis HStr : ∀ s, P (VStr s).
Hypothesis HList : ∀ l, P (VList l).
Hypothesis HDict :
  ∀ d, (∀ k v, (k, v) ∈ items d → P v) → P (VDict d).
Hypothesis HModel :
  ∀ c d, (∀ k v, (k, v) ∈ items d → P v) → P (VModel c d).
Hypothesis HPartial :
  ∀ cls d, (∀ k v, (k, v) ∈ items d → P v) → P (VPartial cls d).

Lemma val_deep_ind : ∀ v, P v.
Proof.
  apply (val_mut_ind P (λ d, ∀ k v, (k, v) ∈ items d → P v)); auto.
  - intros k v H. by apply elem_of_nil in H.
  - intros key v Hv rest Hrest k v' H. simpl in H.
    apply elem_of_cons in H as [[= -> ->]|H]; eauto.
Qed.
End val_deep_ind.

Lemma dict_get_items key v d : dict_get key d = Some v → (key, v) ∈ items d.
Proof.
  induction d as [|k v' rest IH]; simpl; [done|].
  destruct (decide (k = key)) as [->|Hne].
  - intros [= ->]. apply elem_of_cons; auto.
  - intros H. apply elem_of_cons; auto.
Qed.

Lemma items_keys key v d : (key, v) ∈ items d → key ∈ keys d.
Proof.
  induction d as [|k v' rest IH]; simpl.
  - intros H. by apply elem_of_nil in H.
  - intros H. apply elem_of_cons in H as [[= -> ->]|H]; apply elem_of_cons; auto.
Qed.

(** ** Validation *)





Lemma Partial_call_Raise cls kwargs e :
  Partial_call cls kwargs = Raise e →
  ∃ c, origin_type cls = Some (TModel c)
       ∧ invalid_fields (cls_hints c) kwargs ≠ []
       ∧ e = ValueError (error_msg c (invalid_fields (cls_hints c) kwargs)).
Proof.
  unfold Partial_call, Partial_new.
  destruct (origin_type cls) as [[|c|name]|]; try discriminate.
  destruct (invalid_fields (cls_hints c) kwargs) as [|f l] eqn:E; [discriminate|].
  simpl. intros [= <-]. exists c. by rewrite E.
Qed.

Lemma Partial_call_validation_error cls kwargs e :
  Partial_call cls kwargs = Raise e → validation_error e.
Proof.
  intros (c & _ & Hne & ->)%Partial_call_Raise. by exists c, kwargs.
Qed.


(** ** What [value] can raise *)

Lemma rov_Ok {A : Type} (a : A) : raises_only_validation (Ok a).
Proof. intros e. discriminate. Qed.

Lemma rov_bind {A B : Type} (m : res A) (k : A → res B) :
  raises_only_validation m →
  (∀ a, m = Ok a → raises_only_validation (k a)) →
  raises_only_validation (bind m k).
Proof.
  intros Hm Hk e [H|(a & Ha & H)]%bind_Raise; [by apply Hm | by eapply Hk].
Qed.

Lemma is_partial_inv v : is_partial v = true → ∃ cls data, v = VPartial cls data.
Proof. destruct v; try discriminate. eauto. Qed.

Lemma _partial_base_model_body_rov key v result :
  value_ok v →
  raises_only_validation
    (_partial_base_model_body value _partial_base_model key v result).
Proof.
  intros [Hv Hd]. unfold _partial_base_model_body.
  destruct (dict_get key result) as [ov|]; [|apply rov_Ok].
  destruct (is_partial v && _) eqn:E.
  - apply andb_true_iff in E as [E _].
    apply rov_bind; [by apply Hv | intros; apply rov_Ok].
  - destruct ov, v; try apply rov_Ok.
    apply rov_bind; [intros e; apply Partial_call_validation_error|].
    intros _ _. apply rov_bind; [|intros; apply rov_Ok].
    rewrite _partial_base_model_eq.
    apply rov_bind; [|intros; apply rov_Ok].
    by apply (Hd d).
Qed.

Lemma _partial_dict_body_rov key v result :
  value_ok v →
  raises_only_validation (_partial_dict_body value key v result).
Proof.
  intros [Hv Hd]. unfold _partial_dict_body.
  destruct (dict_get key result) as [ov|]; [|apply rov_Ok].
  destruct (is_partial v) eqn:E.
  - apply rov_bind; [by apply Hv | intros; apply rov_Ok].
  - destruct ov, v; apply rov_Ok.
Qed.

Lemma validation_error_caught {A : Type} (m handler : res A) :
  raises_only_validation m →
  try_except m handler = match m with Ok a => Ok a | Raise _ => handler end.
Proof.
  intros H. destruct m as [a|e]; [done|].
  destruct (H e eq_refl) as (c & kw & _ & ->). done.
Qed.

Lemma py_int_rov s e : py_int s = Raise e → ∃ msg, e = ValueError msg.
Proof.
  unfold py_int. destruct (match lstrip s with EmptyString => _ | _ => _ end);
    [discriminate|]. intros [= <-]. eauto.
Qed.

Lemma _partial_list_body_total key v result :
  value_ok v →
  ∃ r, _partial_list_body value key v result = Ok r ∧ length r = length result.
Proof.
  intros [Hv _]. unfold _partial_list_body.
  destruct (py_int key) as [idx|e] eqn:Hint; simpl.
  2:{ apply py_int_rov in Hint as [msg ->]. eauto. }
  destruct (_ && _)%Z eqn:Hrange; [|simpl; eauto].
  unfold list_getitem. destruct (result !! Z.to_nat idx) as [ov|] eqn:Hov;
    [|simpl; eauto].
  simpl. destruct (is_partial v) eqn:E.
  - specialize (Hv eq_refl ov). destruct (value v ov) as [x|e] eqn:Hx; simpl.
    + eexists; split; [done|]. by rewrite length_insert.
    + destruct (Hv e eq_refl) as (c & kw & _ & ->). eauto.
  - destruct ov, v; simpl; (eexists; split; [done|]; by rewrite length_insert).
Qed.

Lemma loops_ok_of_values d :
  (∀ k v, (k, v) ∈ items d → value_ok v) → loops_ok d.
Proof.
  induction d as [|key v rest IH]; intros Hvals.
  - repeat split; intros result; simpl; try apply rov_Ok. eauto.
  - assert (value_ok v) as Hv by (apply (Hvals key); simpl; apply elem_of_cons; auto).
    destruct IH as (IH1 & IH2 & IH3).
    { intros k v' H. apply (Hvals k). simpl. apply elem_of_cons; auto. }
    repeat split; intros result; rewrite for_items_cons.
    + apply rov_bind; [by apply _partial_base_model_body_rov | auto].
    + apply rov_bind; [by apply _partial_dict_body_rov | auto].
    + destruct (_partial_list_body_total key v result Hv) as (r & -> & Hlen).
      simpl. destruct (IH3 r) as (r' & -> & Hlen'). exists r'. split; [done|]. congruence.
Qed.

Lemma value_ok_all v : value_ok v.
Proof.
  induction v as [| | | | |d IH|c d IH|cls d IH] using val_deep_ind;
    try solve [split; [simpl; intros [=] | intros ? [=]]].
  - split; [simpl; intros [=]|]. intros d' [= <-]. by apply loops_ok_of_values.
  - split; [|intros ? [=]]. intros _ original.
    destruct (loops_ok_of_values d IH) as (L1 & L2 & L3).
    destruct original as [| | | |l|m|c fields|cls' data'];
      try apply rov_Ok.
    + rewrite value_list, _partial_list_eq.
      destruct (dict_get "items" d) as [pi|] eqn:Hitems; [|apply rov_Ok].
      destruct pi; try apply rov_Ok.
      apply dict_get_items, IH in Hitems as [_ Hd].
      destruct (Hd _ eq_refl) as (_ & _ & L). destruct (L l) as (r & -> & _).
      apply rov_Ok.
    + rewrite value_dict, _partial_dict_eq.
      apply rov_bind; [apply L2 | intros; apply rov_Ok].
    + rewrite value_model, _partial_base_model_eq.
      apply rov_bind; [apply L1 | intros; apply rov_Ok].
Qed.


Lemma _partial_list_loop_total d result :
  ∃ r, for_items (_partial_list_body value) d result = Ok r
       ∧ length r = length result.
Proof. by apply (value_ok_all (VDict d)). Qed.

Lemma plain_loops_total (d : entries) :
  (∀ k v, (k, v) ∈ items d → plain v = true) →
  (∀ result, ∃ r,
     for_items (_partial_base_model_body value _partial_base_model) d result = Ok r)
  ∧ (∀ result, ∃ r, for_items (_partial_dict_body value) d result = Ok r).
Proof.
  induction d as [|key v rest IH]; intros Hplain; [split; simpl; eauto|].
  assert (plain v = true) as Hv by (apply (Hplain key); simpl; apply elem_of_cons; auto).
  destruct IH as [IH1 IH2].
  { intros k v' H. apply (Hplain k). simpl. apply elem_of_cons; auto. }
  split; intros result; rewrite for_items_cons.
  - assert (∃ r, _partial_base_model_body value _partial_base_model key v result
                 = Ok r) as [r ->]; [|apply IH1].
    unfold _partial_base_model_body.
    destruct (dict_get key result) as [ov|]; [|eauto].
    destruct ov, v; try discriminate; simpl; eauto.
  - assert (∃ r, _partial_dict_body value key v result = Ok r) as [r ->];
      [|apply IH2].
    unfold _partial_dict_body.
    destruct (dict_get key result) as [ov|]; [|eauto].
    destruct ov, v; try discriminate; simpl; eauto.
Qed.

Lemma value_list_total cls data l :
  ∃ r, value (VPartial cls data) (VList l) = Ok (VList r).
Proof.
  rewrite value_list, _partial_list_eq.
  destruct (dict_get "items" data) as [pi|]; [|simpl; eauto].
  destruct pi; simpl; eauto.
  destruct (_partial_list_loop_total d l) as (r & -> & _). simpl. eauto.
Qed.

Lemma value_plain_total cls data original :
  (∀ k v, (k, v) ∈ items data → plain v = true) →
  ∃ r, value (VPartial cls data) original = Ok r.
Proof.
  intros [L1 L2]%plain_loops_total.
  destruct original as [| | | |l|m|c fields|cls' data']; try (simpl; eauto; fail).
  - destruct (value_list_total cls data l) as [r ->]. eauto.
  - rewrite value_dict, _partial_dict_eq. destruct (L2 m) as [r ->]. simpl. eauto.
  - rewrite value_model, _partial_base_model_eq. destruct (L1 fields) as [r ->].
    simpl. eauto.
Qed.

(** ** Construction and validation *)




(** ** What one step of a loop does to [result] *)

Lemma for_items_eapp {S : Type} (body : string → val → S → res S) d1 d2 result :
  for_items body (eapp d1 d2) result =
  do r <- for_items body d1 result; for_items body d2 r.
Proof.
  revert result. induction d1 as [|k v rest IH]; intros result; [done|].
  simpl. destruct (body k v result) as [r|e]; simpl; [apply IH | done].
Qed.

Lemma keys_eapp d1 d2 : keys (eapp d1 d2) = (keys d1 ++ keys d2)%list.
Proof. induction d1 as [|k v rest IH]; simpl; [done | by rewrite IH]. Qed.

Ltac inv_res :=
  repeat match goal with
    | H : bind _ _ = Ok _ |- _ => apply bind_Ok in H as (? & ? & H)
    | H : Ok _ = Ok _ |- _ => injection H as H; try subst
    | H : Raise _ = Ok _ |- _ => discriminate H
    end.

Section body_shape.
Variable self_value : val → val → res val.
Variable nested_value : entries → model_class → entries → res val.





Lemma _partial_dict_body_absent key v result :
  dict_get key result = None →
  _partial_dict_body self_value key v result = Ok (dict_set key v result).
Proof. unfold _partial_dict_body. by intros ->. Qed.

Lemma _partial_dict_body_Ok key v result r :
  _partial_dict_body self_value key v result = Ok r →
  ∃ x, r = dict_set key x result.
Proof.
  unfold _partial_dict_body.
  destruct (dict_get key result) as [ov|]; [|intros [= <-]; eauto].
  destruct (is_partial v); [intros; inv_res; eauto|].
  destruct ov, v; intros; inv_res; eauto.
Qed.

Lemma _partial_dict_loop_other k d result r :
  k ∉ keys d →
  for_items (_partial_dict_body self_value) d result = Ok r →
  dict_get k r = dict_get k result.
Proof.
  revert result. induction d as [|key v rest IH]; intros result; simpl.
  - by intros _ [= ->].
  - intros [Hne Hnin]%not_elem_of_cons (r' & Hbody & Hrest)%bind_Ok.
    rewrite (IH _ Hnin Hrest).
    apply _partial_dict_body_Ok in Hbody as [x ->].
    by apply dict_get_set_ne.
Qed.
End body_shape.

(** ** Unknown keys on a record *)



(** ** A partial as the override of an absent key of a mapping *)

(** C3, as the code has it.  When the key [k] is absent from the mapping
    [m], an override at [k] that is a partial is not applied: the [else]
    branch of [_partial_dict] adds the key, so the entry stored at [k] in
    the result is the partial object itself.  The patch [{k: p}] alone
    returns [m] with the entry [(k, p)] appended. *)
Theorem absent_key_stores_partial (cls pcls : partial_class)
    (pdata m d1 d2 : entries) (k : string) :
  dict_get k m = None → k ∉ keys d1 → k ∉ keys d2 →
  value (VPartial cls (ECons k (VPartial pcls pdata) ENil)) (VDict m)
  = Ok (VDict (dict_set k (VPartial pcls pdata) m))
  ∧ items (dict_set k (VPartial pcls pdata) m)
    = (items m ++ [(k, VPartial pcls pdata)])%list
  ∧ (∀ r, value (VPartial cls (eapp d1 (ECons k (VPartial pcls pdata) d2)))
               (VDict m) = Ok r →
       ∃ m', r = VDict m' ∧ dict_get k m' = Some (VPartial pcls pdata)).
Proof.
  intros Hk H1 H2. split_and!.
  - rewrite value_dict, _partial_dict_eq. simpl.
    by rewrite _partial_dict_body_absent.
  - by apply dict_set_absent.
  - intros r. rewrite value_dict, _partial_dict_eq, for_items_eapp.
    intros (m' & Hloop & [= <-])%bind_Ok. exists m'. split; [done|].
    apply bind_Ok in Hloop as (r1 & Hd1 & Hloop).
    apply (_partial_dict_loop_other _ k) in Hd1; [|done].
    rewrite for_items_cons in Hloop.
    rewrite _partial_dict_body_absent in Hloop by congruence. simpl in Hloop.
    apply (_partial_dict_loop_other _ k) in Hloop; [|done].
    by rewrite Hloop, dict_get_set_eq.
Qed.

Lemma absent_key_stores_partial_witness :
  value (VPartial Partial (ECons "k" partial_value_1 ENil))
        (VDict (dict_of [("x", VInt 1)]))
  = Ok (VDict (dict_of [("x", VInt 1); ("k", partial_value_1)])).
Proof.
  apply (absent_key_stores_partial Partial Partial
           (dict_of [("value", VInt 1)]) (dict_of [("x", VInt 1)]) ENil ENil "k").
  - reflexivity.
  - apply not_elem_of_nil.
  - apply not_elem_of_nil.
Defined.

Lemma value_partial_value_1 (origin : val) :
  value partial_value_1 origin ≠ Ok partial_value_1.
Proof.
  unfold partial_value_1.
  destruct origin as [| | | |l|m|c fields|cls' data']; try discriminate.
  - rewrite value_dict. by destruct (_partial_dict _ m).
  - rewrite value_model, _partial_base_model_eq. by destruct (for_items _ _ fields).
Qed.

(** C3, the claim as the spec states it, fails: with [k] absent from the
    empty mapping, the patch [{k: Partial(value=1)}] stores the partial
    itself at [k].  Applying that partial to an absent origin gives [1],
    and applying it to any origin at all never gives the partial, so the
    stored entry is not the value produced by applying it. *)
Lemma absent_key_partial_not_applied :
  value (VPartial Partial (ECons "k" partial_value_1 ENil)) (VDict ENil)
  = Ok (VDict (ECons "k" partial_value_1 ENil))
  ∧ dict_get "k" (ECons "k" partial_value_1 ENil) = Some partial_value_1
  ∧ value partial_value_1 VNone = Ok (VInt 1)
  ∧ ¬ (∃ origin x, value partial_value_1 origin = Ok x
                  ∧ dict_get "k" (ECons "k" partial_value_1 ENil) = Some x).
Proof.
  split_and!; try reflexivity.
  intros (origin & x & Hx & [= <-]). by apply (value_partial_value_1 origin).
Qed.

(** ** [_merge_dicts] *)

Lemma dict_set_keys key x d :
  keys (dict_set key x d) =
  if decide (key ∈ keys d) then keys d else (keys d ++ [key])%list.
Proof.
  induction d as [|k v rest IH]; cbn [keys dict_set].
  - destruct (decide (key ∈ [])) as [H|H]; [by apply elem_of_nil in H | done].
  - destruct (decide (k = key)) as [->|Hne]; cbn [keys].
    + destruct (decide (key ∈ key :: keys rest)) as [H|H]; [done|].
      destruct H. apply elem_of_cons; auto.
    + rewrite IH.
      destruct (decide (key ∈ keys rest)) as [Hin|Hnin],
               (decide (key ∈ k :: keys rest)) as [H|H]; try done.
      * destruct H. apply elem_of_cons; auto.
      * apply elem_of_cons in H as [->|H]; done.
Qed.

Lemma filter_ext_elem {A : Type} (P Q : A → Prop)
    `{!∀ x, Decision (P x), !∀ x, Decision (Q x)} (l : list A) :
  (∀ x, x ∈ l → (P x ↔ Q x)) → filter P l = filter Q l.
Proof.
  induction l as [|a l IH]; intros Hext; [done|].
  rewrite !filter_cons. rewrite IH by (intros x Hx; apply Hext, elem_of_cons; auto).
  assert (P a ↔ Q a) as Ha by (apply Hext, elem_of_cons; auto).
  destruct (decide (P a)), (decide (Q a)); tauto || done.
Qed.

Lemma _merge_dicts_cons original key value rest :
  _merge_dicts original (ECons key value rest)
  = _merge_dicts (merge_step key value original) rest.
Proof. reflexivity. Qed.

Lemma merge_step_set key value result :
  ∃ x, merge_step key value result = dict_set key x result
       ∧ x = match dict_get key result, value with
             | Some (VDict r), VDict p => VDict (_merge_dicts r p)
             | _, _ => value
             end.
Proof.
  unfold merge_step. destruct (dict_get key result) as [[]|], value; eauto.
Qed.

Lemma _merge_dicts_get (a b : entries) (k : string) :
  NoDup (keys b) →
  dict_get k (_merge_dicts a b) =
  match dict_get k b with
  | None => dict_get k a
  | Some vb =>
      match dict_get k a, vb with
      | Some (VDict da), VDict db => Some (VDict (_merge_dicts da db))
      | _, _ => Some vb
      end
  end.
Proof.
  revert a. induction b as [|key value rest IH]; intros a Hnd; [done|].
  simpl in Hnd. apply NoDup_cons in Hnd as [Hnin Hnd].
  rewrite _merge_dicts_cons, (IH _ Hnd).
  destruct (merge_step_set key value a) as (x & -> & Hx). simpl.
  destruct (decide (key = k)) as [->|Hne].
  - apply dict_get_None in Hnin. rewrite Hnin, dict_get_set_eq, Hx.
    by destruct (dict_get k a) as [[]|], value.
  - by rewrite (dict_get_set_ne _ _ _ _ Hne).
Qed.

Lemma _merge_dicts_keys (a b : entries) :
  NoDup (keys b) →
  keys (_merge_dicts a b) = (keys a ++ filter (λ k, k ∉ keys a) (keys b))%list.
Proof.
  revert a. induction b as [|key value rest IH]; intros a Hnd.
  - simpl. by rewrite app_nil_r.
  - simpl in Hnd. apply NoDup_cons in Hnd as [Hnin Hnd].
    rewrite _merge_dicts_cons, (IH _ Hnd).
    destruct (merge_step_set key value a) as (x & -> & _).
    rewrite dict_set_keys. simpl. rewrite filter_cons.
    destruct (decide (key ∈ keys a)) as [Hin|Hna].
    + rewrite decide_False by auto. done.
    + rewrite decide_True by done. rewrite <- app_assoc. simpl. do 2 f_equal.
      apply filter_ext_elem. intros k Hk. rewrite not_elem_of_app.
      split; [tauto|]. intros ?. split; [done|].
      intros ->%list_elem_of_singleton. done.
Qed.

(** C7. [_merge_dicts(a, b)] is right-biased and deep.  For a dict [b]
    (its keys are distinct): the value at a key of [b] is the recursive
    merge when the values of [a] and [b] at that key are both dicts, and the
    value of [b] otherwise; a key outside [b] keeps the value it has in [a];
    the keys of [a] keep their order and the new keys of [b] follow.  In
    particular [{"a": {"b": 1, "c": 2}}] merged with, and patched by,
    [{"a": {"b": 99}}] is [{"a": {"b": 99, "c": 2}}]. *)
Theorem merge_dicts_right_biased_deep (a b : entries) :
  NoDup (keys b) →
  (∀ k,
     dict_get k (_merge_dicts a b) =
     match dict_get k b with
     | None => dict_get k a
     | Some vb =>
         match dict_get k a, vb with
         | Some (VDict da), VDict db => Some (VDict (_merge_dicts da db))
         | _, _ => Some vb
         end
     end)
  ∧ keys (_merge_dicts a b) = (keys a ++ filter (λ k, k ∉ keys a) (keys b))%list
  ∧ _merge_dicts
      (dict_of [("a", VDict (dict_of [("b", VInt 1); ("c", VInt 2)]))])
      (dict_of [("a", VDict (dict_of [("b", VInt 99)]))])
    = dict_of [("a", VDict (dict_of [("b", VInt 99); ("c", VInt 2)]))]
  ∧ value (VPartial Partial (dict_of [("a", VDict (dict_of [("b", VInt 99)]))]))
          (VDict (dict_of [("a", VDict (dict_of [("b", VInt 1); ("c", VInt 2)]))]))
    = Ok (VDict (dict_of [("a", VDict (dict_of [("b", VInt 99); ("c", VInt 2)]))])).
Proof.
  intros Hnd. split_and!.
  - intros k. by apply _merge_dicts_get.
  - by apply _merge_dicts_keys.
  - reflexivity.
  - reflexivity.
Qed.

Lemma merge_dicts_right_biased_deep_witness :
  dict_get "a"
    (_merge_dicts
       (dict_of [("x", VInt 0); ("a", VDict (dict_of [("b", VInt 1); ("c", VInt 2)]))])
       (dict_of [("a", VDict (dict_of [("b", VInt 99)])); ("y", VInt 5)]))
  = Some (VDict (_merge_dicts (dict_of [("b", VInt 1); ("c", VInt 2)])
                              (dict_of [("b", VInt 99)]))).
Proof.
  assert (NoDup (keys (dict_of [("a", VDict (dict_of [("b", VInt 99)])); ("y", VInt 5)])))
    as Hnd.
  { simpl. apply NoDup_cons. split.
    - intros H. apply elem_of_cons in H as [H|H]; [discriminate|].
      by apply elem_of_nil in H.
    - apply NoDup_singleton. }
  exact (proj1 (merge_dicts_right_biased_deep
    (dict_of [("x", VInt 0); ("a", VDict (dict_of [("b", VInt 1); ("c", VInt 2)]))])
    (dict_of [("a", VDict (dict_of [("b", VInt 99)])); ("y", VInt 5)]) Hnd) "a").
Defined.

(** ** A nested record patched by a plain mapping *)


Lemma keys_dict_get key d : key ∈ keys d → ∃ v, dict_get key d = Some v.
Proof.
  intros Hin. destruct (dict_get key d) as [v|] eqn:E; [eauto|].
  by apply dict_get_None in E.
Qed.





(** The example of the spec: [addr.city] becomes ["Y"], [addr.street] is
    untouched. *)
Lemma nested_record_patch_example :
  value (VPartial Partial (dict_of [("addr", VDict (dict_of [("city", VStr "Y")]))]))
        user_n
  = Ok (VModel User
          (dict_of [("name", VStr "n");
                    ("addr", VModel Address
                               (dict_of [("street", VStr "A"); ("city", VStr "Y")]))])).
Proof. reflexivity. Qed.

(** ** Index-targeted edits of a sequence *)


Lemma target_of_nat idx_str n i :
  py_int idx_str = Ok (Z.of_nat i) → (i < n)%nat → target idx_str n = Some i.
Proof.
  intros Hint Hlt. unfold target. rewrite Hint.
  replace ((0 <=? Z.of_nat i) && (Z.of_nat i <? Z.of_nat n))%Z with true by lia.
  by rewrite Nat2Z.id.
Qed.

Lemma target_Some_py_int idx_str n i :
  target idx_str n = Some i → py_int idx_str = Ok (Z.of_nat i).
Proof.
  unfold target. destruct (py_int idx_str) as [idx|]; [|done].
  destruct (_ && _)%Z eqn:E; [|done]. intros [= <-]. f_equal. lia.
Qed.











(** * Further properties of the value layer *)

(** ** What a patch keeps of a record and of a mapping *)



Lemma _partial_dict_loop_keys self_value d result r :
  NoDup (keys d) →
  for_items (_partial_dict_body self_value) d result = Ok r →
  keys r = (keys result ++ filter (λ k, k ∉ keys result) (keys d))%list.
Proof.
  revert result. induction d as [|key v rest IH]; intros result Hnd.
  - simpl. intros [= ->]. by rewrite app_nil_r.
  - simpl in Hnd. apply NoDup_cons in Hnd as [Hnin Hnd].
    rewrite for_items_cons. intros (r' & Hbody & Hrest)%bind_Ok.
    rewrite (IH _ Hnd Hrest).
    apply _partial_dict_body_Ok in Hbody as [x ->].
    rewrite dict_set_keys. simpl. rewrite filter_cons.
    destruct (decide (key ∈ keys result)) as [Hin|Hna].
    + rewrite decide_False by auto. done.
    + rewrite decide_True by done. rewrite <- app_assoc. simpl. do 2 f_equal.
      apply filter_ext_elem. intros k Hk. rewrite not_elem_of_app.
      split; [tauto|]. intros ?. split; [done|].
      intros ->%list_elem_of_singleton. done.
Qed.

(** X2. Applying a patch to a mapping never drops or reorders a key of the
    original: the keys of the result are the keys of the original, in their
    order, followed by the keys of the patch that the original does not
    have, in the order of the patch.  A patch whose overrides are neither
    mappings nor partials always returns. *)
Theorem mapping_keys_kept (cls : partial_class) (data m : entries) :
  NoDup (keys data) →
  (∀ r, value (VPartial cls data) (VDict m) = Ok r →
     ∃ m', r = VDict m'
           ∧ keys m' = (keys m ++ filter (λ k, k ∉ keys m) (keys data))%list)
  ∧ ((∀ k v, (k, v) ∈ items data → plain v = true) →
     ∃ m', value (VPartial cls data) (VDict m) = Ok (VDict m')
           ∧ keys m' = (keys m ++ filter (λ k, k ∉ keys m) (keys data))%list).
Proof.
  intros Hnd.
  assert (∀ r, value (VPartial cls data) (VDict m) = Ok r →
     ∃ m', r = VDict m'
           ∧ keys m' = (keys m ++ filter (λ k, k ∉ keys m) (keys data))%list)
    as Hkeys.
  { intros r. rewrite value_dict, _partial_dict_eq.
    intros (m' & Hloop & [= <-])%bind_Ok. exists m'. split; [done|].
    by eapply _partial_dict_loop_keys. }
  split; [done|]. intros Hplain.
  destruct (value_plain_total cls data (VDict m) Hplain) as [r Hr].
  destruct (Hkeys r Hr) as (m' & -> & Hk). eauto.
Qed.

Lemma mapping_keys_kept_witness :
  ∃ m', value (VPartial Partial (dict_of [("y", VInt 2); ("x", VInt 3)]))
              (VDict (dict_of [("x", VInt 1); ("w", VInt 0)]))
        = Ok (VDict m')
        ∧ keys m' = ["x"; "w"; "y"].
Proof.
  destruct (mapping_keys_kept Partial (dict_of [("y", VInt 2); ("x", VInt 3)])
              (dict_of [("x", VInt 1); ("w", VInt 0)])) as [_ H].
  - apply NoDup_cons. split; [|apply NoDup_singleton].
    intros ?%list_elem_of_singleton. discriminate.
  - apply H. intros k v Hin.
    apply elem_of_cons in Hin as [[= -> ->]|Hin]; [reflexivity|].
    apply elem_of_cons in Hin as [[= -> ->]|Hin]; [reflexivity|].
    by apply elem_of_nil in Hin.
Defined.

(** ** A patch without partials on a mapping is a merge *)

Lemma _partial_dict_body_no_partial self_value key v result :
  is_partial v = false →
  _partial_dict_body self_value key v result = Ok (merge_step key v result).
Proof.
  intros Hv. unfold _partial_dict_body, merge_step.
  destruct (dict_get key result) as [ov|]; [|done]. rewrite Hv.
  by destruct ov, v.
Qed.

Lemma _partial_dict_loop_no_partial (data m : entries) :
  (∀ k v, (k, v) ∈ items data → is_partial v = false) →
  for_items (_partial_dict_body value) data m = Ok (_merge_dicts m data).
Proof.
  revert m. induction data as [|key v rest IH]; intros m Hfree; [done|].
  rewrite for_items_cons, _merge_dicts_cons, _partial_dict_body_no_partial.
  - simpl. apply IH. intros k v' H. apply (Hfree k). simpl. apply elem_of_cons; auto.
  - apply (Hfree key). simpl. apply elem_of_cons; auto.
Qed.

(** X3. When no override of the patch is a partial, applying the patch to
    a mapping is [_merge_dicts] of the original and the overrides: it
    always returns, and returns the deep right-biased merge. *)
Theorem partial_free_patch_is_merge (cls : partial_class) (data m : entries) :
  (∀ k v, (k, v) ∈ items data → is_partial v = false) →
  value (VPartial cls data) (VDict m) = Ok (VDict (_merge_dicts m data)).
Proof.
  intros Hfree. rewrite value_dict, _partial_dict_eq.
  by rewrite _partial_dict_loop_no_partial.
Qed.

Lemma partial_free_patch_is_merge_witness :
  value (VPartial Partial (dict_of [("a", VDict (dict_of [("b", VInt 99)]));
                                     ("l", VList [VInt 3])]))
        (VDict (dict_of [("a", VDict (dict_of [("b", VInt 1); ("c", VInt 2)]));
                         ("l", VList [VInt 1; VInt 2])]))
  = Ok (VDict (_merge_dicts
                 (dict_of [("a", VDict (dict_of [("b", VInt 1); ("c", VInt 2)]));
                           ("l", VList [VInt 1; VInt 2])])
                 (dict_of [("a", VDict (dict_of [("b", VInt 99)]));
                           ("l", VList [VInt 3])]))).
Proof.
  apply partial_free_patch_is_merge. intros k v H.
  apply elem_of_cons in H as [[= -> ->]|H]; [reflexivity|].
  apply elem_of_cons in H as [[= -> ->]|H]; [reflexivity|].
  by apply elem_of_nil in H.
Defined.

(** ** A partial as the override of a scalar *)

(** X4. A partial given as the override of an entry that holds a scalar is
    treated differently by the two rules.  On a record the partial is not
    applied: the attribute is assigned the partial object itself.  On a
    mapping the partial is applied to the scalar, which gives its [value]
    entry if it has one and the scalar otherwise. *)
Theorem partial_override_of_scalar (cls pcls : partial_class)
    (pdata : entries) (k : string) (ov : val) :
  is_scalar ov = true →
  (∀ c fields, dict_get k fields = Some ov →
     value (VPartial cls (ECons k (VPartial pcls pdata) ENil)) (VModel c fields)
     = Ok (VModel c (dict_set k (VPartial pcls pdata) fields)))
  ∧ (∀ m, dict_get k m = Some ov →
       value (VPartial cls (ECons k (VPartial pcls pdata) ENil)) (VDict m)
       = Ok (VDict (dict_set k (default ov (dict_get "value" pdata)) m))).
Proof.
  intros Hov. split.
  - intros c fields Hget. rewrite value_model, _partial_base_model_eq. simpl.
    unfold _partial_base_model_body. rewrite Hget.
    by destruct ov.
  - intros m Hget. rewrite value_dict, _partial_dict_eq. simpl.
    unfold _partial_dict_body. rewrite Hget. simpl.
    by destruct ov.
Qed.

Lemma partial_override_of_scalar_witness :
  value (VPartial Partial (ECons "name" partial_value_1 ENil)) user_n
  = Ok (VModel User (dict_of [("name", partial_value_1); ("addr", address_A_X)]))
  ∧ value (VPartial Partial (ECons "name" partial_value_1 ENil))
          (VDict (dict_of [("name", VStr "n")]))
    = Ok (VDict (dict_of [("name", VInt 1)])).
Proof.
  destruct (partial_override_of_scalar Partial Partial
              (dict_of [("value", VInt 1)]) "name" (VStr "n") eq_refl) as [H1 H2].
  split.
  - apply (H1 User (dict_of [("name", VStr "n"); ("addr", address_A_X)])). reflexivity.
  - apply (H2 (dict_of [("name", VStr "n")])). reflexivity.
Defined.

(** ** [_merge_dicts] on disjoint dicts, and twice *)

Lemma dict_set_eapp_absent key x d :
  key ∉ keys d → dict_set key x d = eapp d (ECons key x ENil).
Proof.
  induction d as [|k v rest IH]; simpl; [done|].
  intros [Hne Hnin]%not_elem_of_cons.
  rewrite decide_False by done. by rewrite IH.
Qed.

Lemma eapp_assoc d1 d2 d3 : eapp (eapp d1 d2) d3 = eapp d1 (eapp d2 d3).
Proof. induction d1 as [|k v rest IH]; simpl; [done | by rewrite IH]. Qed.

(** X5. Merging a dict whose keys are all new appends it: when the keys of
    [b] are distinct and none is a key of [a], [_merge_dicts(a, b)] is [a]
    followed by the entries of [b]; in particular merging into the empty
    dict gives [b] back. *)
Theorem merge_dicts_disjoint (a b : entries) :
  NoDup (keys b) → (∀ k, k ∈ keys b → k ∉ keys a) →
  _merge_dicts a b = eapp a b ∧ (a = ENil → _merge_dicts a b = b).
Proof.
  intros Hnd Hdisj.
  assert (_merge_dicts a b = eapp a b) as Heq.
  { revert a Hdisj. induction b as [|key v rest IH]; intros a Hdisj.
    - simpl. clear. induction a as [|k v rest IH]; simpl; [done | by rewrite <- IH].
    - simpl in Hnd. apply NoDup_cons in Hnd as [Hnin Hnd].
      rewrite _merge_dicts_cons.
      assert (key ∉ keys a) as Hka by (apply Hdisj; simpl; apply elem_of_cons; auto).
      assert (merge_step key v a = eapp a (ECons key v ENil)) as ->.
      { unfold merge_step. apply dict_get_None in Hka. rewrite Hka.
        apply dict_set_eapp_absent. by apply dict_get_None. }
      rewrite (IH Hnd), eapp_assoc; [done|].
      intros k Hk. rewrite keys_eapp. apply not_elem_of_app. split.
      + apply Hdisj. simpl. apply elem_of_cons; auto.
      + simpl. intros ->%list_elem_of_singleton. done. }
  split; [done|]. intros ->. by rewrite Heq.
Qed.

Lemma merge_dicts_disjoint_witness :
  _merge_dicts (dict_of [("x", VInt 1)]) (dict_of [("y", VInt 2); ("z", VInt 3)])
  = dict_of [("x", VInt 1); ("y", VInt 2); ("z", VInt 3)].
Proof.
  apply (merge_dicts_disjoint (dict_of [("x", VInt 1)])
           (dict_of [("y", VInt 2); ("z", VInt 3)])).
  - apply NoDup_cons. split; [|apply NoDup_singleton].
    intros ?%list_elem_of_singleton. discriminate.
  - intros k Hk ?%list_elem_of_singleton. subst k.
    apply elem_of_cons in Hk as [?|Hk]; [discriminate|].
    apply list_elem_of_singleton in Hk. discriminate.
Defined.

Lemma dict_set_same key x d : dict_get key d = Some x → dict_set key x d = d.
Proof.
  induction d as [|k v rest IH]; simpl; [done|].
  destruct (decide (k = key)); [by intros [= ->] | intros H; by rewrite IH].
Qed.

Lemma _merge_dicts_stable c b :
  (∀ k v, (k, v) ∈ items b → merge_step k v c = c) → _merge_dicts c b = c.
Proof.
  induction b as [|key v rest IH]; intros Hfix; [done|].
  rewrite _merge_dicts_cons, Hfix by (simpl; apply elem_of_cons; auto).
  apply IH. intros k v' H. apply Hfix. simpl. apply elem_of_cons; auto.
Qed.

Lemma entries_wf_NoDup d : entries_wf d → NoDup (keys d).
Proof.
  induction d as [|k v rest IH]; simpl; [intros _; apply NoDup_nil_2|].
  intros (Hk & _ & Hrest). apply NoDup_cons. auto.
Qed.

Lemma entries_wf_items k v d : entries_wf d → (k, v) ∈ items d → dicts_wf v.
Proof.
  induction d as [|k' v' rest IH]; simpl.
  - intros _ H. by apply elem_of_nil in H.
  - intros (_ & Hv & Hrest) H. apply elem_of_cons in H as [[= -> ->]|H]; auto.
Qed.

Lemma NoDup_items_dict_get k v d :
  NoDup (keys d) → (k, v) ∈ items d → dict_get k d = Some v.
Proof.
  induction d as [|k' v' rest IH]; simpl.
  - intros _ H. by apply elem_of_nil in H.
  - intros [Hnin Hnd]%NoDup_cons H.
    apply elem_of_cons in H as [[= -> ->]|H].
    + by rewrite decide_True.
    + rewrite decide_False; [auto|]. intros ->. by apply items_keys in H.
Qed.

(** Merging a dict into itself, and merging the same dict a second time. *)
Definition merge_twice_same (v : val) : Prop :=
  ∀ d, v = VDict d → entries_wf d →
       _merge_dicts d d = d
       ∧ ∀ a, _merge_dicts (_merge_dicts a d) d = _merge_dicts a d.

Lemma merge_twice_same_all v : merge_twice_same v.
Proof.
  induction v as [| | | | |d IH|c d IH|cls d IH] using val_deep_ind;
    try solve [intros ? [=]].
  intros d' [= <-] Hwf.
  pose proof (entries_wf_NoDup d Hwf) as Hnd.
  assert (_merge_dicts d d = d) as Hself.
  { apply _merge_dicts_stable. intros k v Hkv. unfold merge_step.
    rewrite (NoDup_items_dict_get k v d Hnd Hkv).
    destruct v as [| | | | |e| |]; try by apply dict_set_same, NoDup_items_dict_get.
    destruct (IH k (VDict e) Hkv e eq_refl) as [-> _].
    - by apply (entries_wf_items k (VDict e) d).
    - by apply dict_set_same, NoDup_items_dict_get. }
  split; [done|]. intros a. apply _merge_dicts_stable. intros k v Hkv.
  pose proof (_merge_dicts_get a d k Hnd) as Hget.
  rewrite (NoDup_items_dict_get k v d Hnd Hkv) in Hget.
  unfold merge_step.
  destruct (dict_get k a) as [[| | | | |da| |]|] eqn:Ha, v as [| | | | |db| |];
    rewrite Hget; try by apply dict_set_same.
  all: try (destruct (IH k (VDict db) Hkv db eq_refl) as [Hs Hi];
            [by apply (entries_wf_items k (VDict db) d)|]).
  all: rewrite ?Hs, ?Hi; by apply dict_set_same.
Qed.

(** X6. [_merge_dicts] is idempotent in its second argument: for a dict
    [b] with distinct keys (also in the dicts it holds), merging [b] into
    the result of merging [b] into [a] changes nothing, and merging [b]
    into itself gives [b]. *)
Theorem merge_dicts_idempotent (a b : entries) :
  entries_wf b →
  _merge_dicts (_merge_dicts a b) b = _merge_dicts a b
  ∧ _merge_dicts b b = b.
Proof.
  intros Hwf.
  destruct (merge_twice_same_all (VDict b) b eq_refl Hwf) as [Hs Hi]. auto.
Qed.

Lemma merge_dicts_idempotent_witness :
  _merge_dicts
    (_merge_dicts
       (dict_of [("a", VDict (dict_of [("b", VInt 1); ("c", VInt 2)])); ("n", VInt 0)])
       (dict_of [("a", VDict (dict_of [("b", VInt 99)])); ("n", VDict ENil)]))
    (dict_of [("a", VDict (dict_of [("b", VInt 99)])); ("n", VDict ENil)])
  = _merge_dicts
      (dict_of [("a", VDict (dict_of [("b", VInt 1); ("c", VInt 2)])); ("n", VInt 0)])
      (dict_of [("a", VDict (dict_of [("b", VInt 99)])); ("n", VDict ENil)]).
Proof.
  apply (merge_dicts_idempotent
           (dict_of [("a", VDict (dict_of [("b", VInt 1); ("c", VInt 2)])); ("n", VInt 0)])
           (dict_of [("a", VDict (dict_of [("b", VInt 99)])); ("n", VDict ENil)])).
  simpl. split_and!; try done.
  - intros ?%list_elem_of_singleton. discriminate.
  - apply not_elem_of_nil.
  - apply not_elem_of_nil.
Defined.

(** X7. Applying twice a patch that holds no partial is applying it once:
    on a mapping, for overrides with distinct keys (also in the dicts they
    hold), the second application returns the result of the first.  A
    patch that holds a partial need not have this property: the partial
    stored at an absent key by the first application is replaced by its
    [value] entry in the second. *)
Theorem partial_free_patch_idempotent (cls : partial_class) (data m : entries) :
  entries_wf data →
  (∀ k v, (k, v) ∈ items data → is_partial v = false) →
  ∃ r, value (VPartial cls data) (VDict m) = Ok (VDict r)
       ∧ value (VPartial cls data) (VDict r) = Ok (VDict r).
Proof.
  intros Hwf Hfree. exists (_merge_dicts m data).
  rewrite !value_dict, !_partial_dict_eq, !_partial_dict_loop_no_partial by done.
  split; [done|].
  by destruct (merge_twice_same_all (VDict data) data eq_refl Hwf) as [_ ->].
Qed.

Lemma partial_free_patch_idempotent_witness :
  ∃ r, value (VPartial Partial (dict_of [("a", VDict (dict_of [("b", VInt 99)]))]))
             (VDict (dict_of [("a", VDict (dict_of [("b", VInt 1); ("c", VInt 2)]))]))
       = Ok (VDict r)
       ∧ value (VPartial Partial (dict_of [("a", VDict (dict_of [("b", VInt 99)]))]))
               (VDict r)
         = Ok (VDict r).
Proof.
  apply partial_free_patch_idempotent.
  - simpl. split_and!; try done; apply not_elem_of_nil.
  - intros k v H. apply elem_of_cons in H as [[= -> ->]|H]; [reflexivity|].
    by apply elem_of_nil in H.
Defined.

(** With a partial at an absent key the second application differs from
    the first. *)
Lemma patch_with_partial_not_idempotent :
  value (VPartial Partial (ECons "k" partial_value_1 ENil)) (VDict ENil)
  = Ok (VDict (ECons "k" partial_value_1 ENil))
  ∧ value (VPartial Partial (ECons "k" partial_value_1 ENil))
          (VDict (ECons "k" partial_value_1 ENil))
    = Ok (VDict (ECons "k" (VInt 1) ENil)).
Proof. split; reflexivity. Qed.

(** ** A patch applied in two parts *)

(** X18. On a record and on a mapping a patch can be split: applying the
    overrides [d1] followed by [d2] in one patch is applying the patch
    [d1] and then the patch [d2] to its result, with the same result and
    the same error. *)
Theorem patch_split (cls : partial_class) (d1 d2 : entries) (original : val) :
  is_model original || is_dict original = true →
  value (VPartial cls (eapp d1 d2)) original
  = (do r <- value (VPartial cls d1) original; value (VPartial cls d2) r).
Proof.
  destruct original as [| | | |l|m|c fields|cls' data']; try discriminate.
  - intros _. rewrite !value_dict, !_partial_dict_eq, for_items_eapp.
    destruct (for_items _ d1 m) as [r1|e]; [|done]. cbn [bind].
    by rewrite value_dict, _partial_dict_eq.
  - intros _. rewrite !value_model, !_partial_base_model_eq, for_items_eapp.
    destruct (for_items _ d1 fields) as [r1|e]; [|done]. cbn [bind].
    by rewrite value_model, _partial_base_model_eq.
Qed.

Lemma patch_split_witness :
  value (VPartial Partial (eapp (dict_of [("name", VStr "m")])
                                (dict_of [("addr", VDict (dict_of [("city", VStr "Y")]))])))
        user_n
  = (do r <- value (VPartial Partial (dict_of [("name", VStr "m")])) user_n;
     value (VPartial Partial (dict_of [("addr", VDict (dict_of [("city", VStr "Y")]))])) r).
Proof.
  apply (patch_split Partial (dict_of [("name", VStr "m")])
           (dict_of [("addr", VDict (dict_of [("city", VStr "Y")]))]) user_n).
  reflexivity.
Defined.

(** * Properties of the store layer *)

Module StoreFacts.
Import Store.

(** ** Calls that leave the objects below an address alone *)

(** From [h] to [h'] no object is lost and the objects at the addresses
    below [n0] are the same. *)
Definition preserves (n0 : nat) (h h' : heap) : Prop :=
  (length h ≤ length h')%nat ∧ ∀ l, (l < n0)%nat → h' !! l = h !! l.

(** From every heap that has the addresses below [n0] in use, [m] preserves
    them, and a value it returns satisfies [Q]. *)
Definition safe {A : Type} (n0 : nat) (m : M A) (Q : A → Prop) : Prop :=
  ∀ h, (n0 ≤ length h)%nat →
       preserves n0 h (m h).2 ∧ ∀ a, (m h).1 = inl a → Q a.

(** A value that references no object below [n0]. *)
Definition fresh (n0 : nat) (v : sval) : Prop :=
  match v with
  | SRef l => (n0 ≤ l)%nat
  | _ => True
  end.

Definition memo_fresh (n0 : nat) (m : memo) : Prop :=
  ∀ l y, memo_get l m = Some y → (n0 ≤ y)%nat.

Lemma preserves_refl n0 h : preserves n0 h h.
Proof. by split. Qed.

Lemma preserves_trans n0 h1 h2 h3 :
  preserves n0 h1 h2 → preserves n0 h2 h3 → preserves n0 h1 h3.
Proof.
  intros [L1 E1] [L2 E2]. split; [lia|]. intros l Hl. by rewrite E2, E1.
Qed.

Lemma safe_ret {A : Type} n0 (a : A) (Q : A → Prop) : Q a → safe n0 (ret a) Q.
Proof.
  intros HQ h Hh. split; [apply preserves_refl|]. by intros a' [= <-].
Qed.

Lemma safe_fail {A : Type} n0 f (Q : A → Prop) : safe n0 (fail f) Q.
Proof. intros h Hh. split; [apply preserves_refl | by intros a [=]]. Qed.

Lemma safe_bind {A B : Type} n0 (m : M A) (k : A → M B) (P : A → Prop)
    (Q : B → Prop) :
  safe n0 m P → (∀ a, P a → safe n0 (k a) Q) → safe n0 (mbind m k) Q.
Proof.
  intros Hm Hk h Hh. destruct (Hm h Hh) as [Hpres HP]. unfold mbind.
  destruct (m h) as [[a|f] h'] eqn:E; simpl in *.
  - destruct (Hk a (HP a eq_refl) h') as [Hpres' HQ]; [destruct Hpres; lia|].
    split; [by eapply preserves_trans | done].
  - split; [done | by intros b [=]].
Qed.

Lemma safe_weaken {A : Type} n0 (m : M A) (P Q : A → Prop) :
  safe n0 m P → (∀ a, P a → Q a) → safe n0 m Q.
Proof.
  intros Hm HPQ h Hh. destruct (Hm h Hh) as [Hpres HP]. split; [done|]. auto.
Qed.

Lemma safe_alloc n0 o : safe n0 (alloc o) (λ y, (n0 ≤ y)%nat).
Proof.
  intros h Hh. unfold alloc; simpl. split; [split|].
  - rewrite length_app. lia.
  - intros l Hl. apply lookup_app_l. lia.
  - by intros y [= <-].
Qed.

Lemma safe_read n0 l : safe n0 (read l) (λ _, True).
Proof.
  intros h Hh. unfold read. destruct (h !! l); simpl;
    (split; [apply preserves_refl | done]).
Qed.

Lemma safe_write n0 l o : (n0 ≤ l)%nat → safe n0 (write l o) (λ _, True).
Proof.
  intros Hl h Hh. unfold write. destruct (decide (l < length h)%nat); simpl.
  - split; [split|done].
    + by rewrite length_insert.
    + intros l' Hl'. apply list_lookup_insert_ne. lia.
  - split; [apply preserves_refl | done].
Qed.

Lemma safe_for_list {A S : Type} n0 (body : A → S → M S) (I : S → Prop) xs s :
  (∀ a s, I s → safe n0 (body a s) I) → I s → safe n0 (for_list body xs s) I.
Proof.
  intros Hbody. revert s. induction xs as [|a rest IH]; intros s Hs; simpl.
  - by apply safe_ret.
  - eapply safe_bind; [by apply Hbody | apply IH].
Qed.

Lemma safe_mtry {A : Type} n0 (body handler : M A) (Q : A → Prop) :
  safe n0 body Q → safe n0 handler Q → safe n0 (mtry body handler) Q.
Proof.
  intros Hb Hh h Hlen. destruct (Hb h Hlen) as [Hpres HQ]. unfold mtry.
  destruct (body h) as [[a|f] h'] eqn:E; simpl in *; [done|].
  assert (preserves n0 h (handler h').2 ∧ ∀ a, (handler h').1 = inl a → Q a)
    as Hhandled.
  { destruct (Hh h') as [Hpres' HQ']; [destruct Hpres; lia|].
    split; [by eapply preserves_trans | done]. }
  destruct f as [[msg| |name]| |]; simpl; try done;
    (split; [done | by intros a [=]]).
Qed.

Lemma safe_lift {A : Type} n0 (r : res A) : safe n0 (lift r) (λ _, True).
Proof. destruct r; [by apply safe_ret | apply safe_fail]. Qed.

(** ** The operations on objects *)

Ltac safe_step :=
  match goal with
  | |- safe _ (ret _) _ => by apply safe_ret
  | |- safe _ (fail _) _ => apply safe_fail
  | |- safe _ (read _) _ => apply safe_read
  | |- safe _ (write _ _) _ => by apply safe_write
  | |- safe _ (mbind _ _) _ => eapply safe_bind; [|intros ? ?]
  | |- safe _ (match ?x with _ => _ end) _ => destruct x
  end.

Lemma safe_deref n0 v : safe n0 (deref v) (λ _, True).
Proof. destruct v; simpl; safe_step. Qed.

Lemma safe_kind_is n0 test v : safe n0 (kind_is test v) (λ _, True).
Proof. destruct v; simpl; repeat safe_step. Qed.

Lemma safe_dict_items n0 d : safe n0 (dict_items d) (λ _, True).
Proof. unfold dict_items. safe_step; [apply safe_deref|]. repeat safe_step. Qed.

Lemma safe_dict_lookup n0 d key : safe n0 (dict_lookup d key) (λ _, True).
Proof. unfold dict_lookup. safe_step; [apply safe_dict_items|]. safe_step. Qed.

Lemma safe_model_lookup n0 m key : safe n0 (model_lookup m key) (λ _, True).
Proof. unfold model_lookup. safe_step; [apply safe_deref|]. repeat safe_step. Qed.

Lemma safe_list_items n0 xs : safe n0 (list_items xs) (λ _, True).
Proof. unfold list_items. safe_step; [apply safe_deref|]. repeat safe_step. Qed.

Lemma safe_list_getitem n0 xs idx : safe n0 (list_getitem xs idx) (λ _, True).
Proof.
  unfold list_getitem. safe_step; [apply safe_list_items|]. repeat safe_step.
Qed.

Lemma safe_class_of n0 m : safe n0 (class_of m) (λ _, True).
Proof. unfold class_of. safe_step; [apply safe_deref|]. repeat safe_step. Qed.

Lemma safe_partial_data n0 self : safe n0 (partial_data self) (λ _, True).
Proof.
  unfold partial_data. safe_step; [apply safe_deref|]. repeat safe_step.
Qed.

(** An assignment into an object that is not below [n0]. *)
Lemma safe_dict_setitem n0 d key x :
  fresh n0 d → safe n0 (dict_setitem d key x) (λ _, True).
Proof. intros Hd. destruct d; simpl in *; repeat safe_step. Qed.

Lemma safe_model_setattr n0 m key x :
  fresh n0 m → safe n0 (model_setattr m key x) (λ _, True).
Proof. intros Hm. destruct m; simpl in *; repeat safe_step. Qed.

Lemma safe_list_setitem n0 xs idx x :
  fresh n0 xs → safe n0 (list_setitem xs idx x) (λ _, True).
Proof. intros Hxs. destruct xs; simpl in *; repeat safe_step. Qed.

Lemma safe_list_append n0 xs x :
  fresh n0 xs → safe n0 (list_append xs x) (λ _, True).
Proof. intros Hxs. destruct xs; simpl in *; repeat safe_step. Qed.

Lemma safe_Partial_init n0 self kwargs :
  fresh n0 self → safe n0 (Partial_init self kwargs) (λ _, True).
Proof. intros Hs. destruct self; simpl in *; repeat safe_step. Qed.

(** ** [copy.deepcopy] writes into its copies only *)

Lemma memo_fresh_nil n0 : memo_fresh n0 [].
Proof. intros l y [=]. Qed.

Lemma memo_fresh_cons n0 l y m :
  (n0 ≤ y)%nat → memo_fresh n0 m → memo_fresh n0 ((l, y) :: m).
Proof.
  intros Hy Hm l' y'. simpl. destruct (decide (l = l')); [by intros [= <-]|].
  apply Hm.
Qed.

Ltac safe_op :=
  first
    [ safe_step
    | apply safe_alloc
    | apply safe_deref
    | apply safe_kind_is
    | apply safe_dict_items
    | apply safe_dict_lookup
    | apply safe_model_lookup
    | apply safe_list_items
    | apply safe_list_getitem
    | apply safe_class_of
    | apply safe_partial_data
    | apply safe_lift
    | apply safe_dict_setitem; done
    | apply safe_model_setattr; done
    | apply safe_list_setitem; done
    | apply safe_list_append; done
    | apply safe_Partial_init; done ].

Lemma safe_deepcopy_memo n0 fuel x m :
  memo_fresh n0 m →
  safe n0 (deepcopy_memo fuel x m) (λ cm, fresh n0 cm.1 ∧ memo_fresh n0 cm.2).
Proof.
  revert x m. induction fuel as [|fuel IH]; intros x m Hm;
    (destruct x as [| | | |l]; simpl; try by apply safe_ret);
    (destruct (memo_get l m) as [y|] eqn:Hget;
       [apply safe_ret; split; [by eapply Hm | done]|]);
    [apply safe_fail|].
  safe_op; [safe_op|]. destruct a as [elems|entries|c attrs|cls data].
  - safe_op; [safe_op|]. simpl in *.
    safe_op; [|by apply safe_ret].
    apply safe_for_list; [|by apply memo_fresh_cons].
    intros e m1 Hm1. safe_op; [by apply IH|]. simpl in *.
    destruct H1 as [_ Hm2]. repeat safe_op.
  - safe_op; [safe_op|]. simpl in *.
    safe_op; [|by apply safe_ret].
    apply safe_for_list; [|by apply memo_fresh_cons].
    intros e m1 Hm1. safe_op; [by apply IH|]. simpl in *.
    destruct H1 as [_ Hm2]. repeat safe_op.
  - safe_op.
    + apply (safe_for_list n0 _ (λ am, memo_fresh n0 am.2)); [|done].
      intros e am Ham. safe_op; [by apply IH|]. simpl in *.
      apply safe_ret. by destruct H0.
    + simpl in *. safe_op; [safe_op|]. simpl in *. apply safe_ret.
      split; [done | by apply memo_fresh_cons].
  - safe_op; [safe_op|]. simpl in *. destruct data as [d|].
    + safe_op; [apply IH; by apply memo_fresh_cons|]. simpl in *.
      destruct H1 as [_ Hm2]. repeat safe_op.
    + apply safe_ret. split; [done | by apply memo_fresh_cons].
Qed.

Lemma safe_deepcopy n0 fuel x : safe n0 (deepcopy fuel x) (fresh n0).
Proof.
  unfold deepcopy. safe_op; [apply safe_deepcopy_memo, memo_fresh_nil|].
  simpl in *. apply safe_ret. by destruct H.
Qed.

(** ** Construction allocates and initialises a new partial *)

Lemma safe_Partial_new n0 cls kwargs :
  safe n0 (Partial_new cls kwargs) (fresh n0).
Proof.
  unfold Partial_new. safe_op.
  - instantiate (1 := λ _, True).
    destruct (origin_type cls) as [[|c|name]|]; try by apply safe_ret.
    destruct (filter _ _); [by apply safe_ret | apply safe_fail].
  - safe_op; [safe_op|]. by apply safe_ret.
Qed.

Lemma safe_Partial_call n0 cls kwargs :
  safe n0 (Partial_call cls kwargs) (fresh n0).
Proof.
  unfold Partial_call. safe_op; [safe_op|]. simpl in *.
  safe_op; [apply safe_Partial_new|]. simpl in *.
  safe_op; [by apply safe_Partial_init|]. by apply safe_ret.
Qed.

(** ** The merges and the methods assign into their copies only *)

Lemma safe_merge_lists n0 original partial :
  safe n0 (_merge_lists original partial) (λ _, True).
Proof. by apply safe_ret. Qed.

Ltac safe_auto call :=
  repeat first
    [ call
    | match goal with
      | |- safe _ (for_list _ _ _) _ =>
          apply (safe_for_list _ _ (λ _, True)); [intros [? ?] [] _; simpl | done]
      | |- safe _ (mtry _ _) _ => apply safe_mtry
      | |- safe _ (_merge_lists _ _) _ => apply safe_merge_lists
      | |- safe _ (deepcopy _ _) _ => apply safe_deepcopy
      | |- safe _ (Partial_call _ _) _ => apply safe_Partial_call
      end
    | safe_op ].

Lemma safe_merge_dicts n0 fuel original partial :
  safe n0 (_merge_dicts fuel original partial) (λ _, True).
Proof.
  revert original partial.
  induction fuel as [|fuel IH]; intros original partial; simpl;
    [apply safe_fail|].
  safe_auto ltac:(apply IH).
Qed.

Section methods_safe.
Variable n0 : nat.
Variable fuel : nat.
Variable self_value : sval → sval → M sval.
Hypothesis self_value_safe :
  ∀ self original, safe n0 (self_value self original) (λ _, True).

Ltac safe_call := first [apply self_value_safe | apply safe_merge_dicts].

Lemma safe_partial_base_model data original :
  safe n0 (_partial_base_model fuel self_value data original) (λ _, True).
Proof. unfold _partial_base_model. safe_auto safe_call. Qed.

Lemma safe_partial_dict data original :
  safe n0 (_partial_dict fuel self_value data original) (λ _, True).
Proof. unfold _partial_dict. safe_auto safe_call. Qed.

Lemma safe_partial_list data original :
  safe n0 (_partial_list fuel self_value data original) (λ _, True).
Proof. unfold _partial_list. safe_auto safe_call. Qed.

Lemma safe_value_body self original :
  safe n0 (value_body fuel self_value self original) (λ _, True).
Proof.
  unfold value_body.
  safe_auto ltac:(first [ apply safe_partial_base_model
                        | apply safe_partial_dict
                        | apply safe_partial_list ]).
Qed.
End methods_safe.

Lemma safe_value n0 fuel self original :
  safe n0 (value fuel self original) (λ _, True).
Proof.
  revert self original. induction fuel as [|fuel IH]; intros self original.
  - apply safe_fail.
  - simpl. by apply safe_value_body.
Qed.

(** ** Reading back what was there before *)

Lemma reify_entries_mono (f g : sval → option val) d e :
  (∀ x t, f x = Some t → g x = Some t) →
  reify_entries f d = Some e → reify_entries g d = Some e.
Proof.
  intros Hfg. revert e. induction d as [|[k x] rest IH]; intros e; [done|].
  simpl. destruct (f x) as [x'|] eqn:Hx; [|done]. rewrite (Hfg _ _ Hx). simpl.
  destruct (reify_entries f rest) as [rest'|]; [|done].
  by rewrite (IH _ eq_refl).
Qed.

Lemma reify_preserved (h h' : heap) depth v t :
  (∀ l o, h !! l = Some o → h' !! l = Some o) →
  reify depth h v = Some t → reify depth h' v = Some t.
Proof.
  intros Hsub. revert v t. induction depth as [|depth IH]; intros v t;
    (destruct v as [| | | |l]; simpl; [done..|]); [done|].
  destruct (h !! l) as [o|] eqn:Hl; [|done]. rewrite (Hsub _ _ Hl). simpl.
  destruct o as [elems|d|c attrs|cls [data|]]; simpl; [| | | |done].
  - destruct (mapM (reify depth h) elems) as [ts|] eqn:Hts; [|done].
    intros [= <-].
    assert (mapM (reify depth h') elems = Some ts) as ->; [|done].
    apply mapM_Some in Hts. apply mapM_Some.
    eapply Forall2_impl; [done|]. intros x y. apply IH.
  - destruct (reify_entries _ d) as [e|] eqn:He; [|done].
    by rewrite (reify_entries_mono _ _ _ _ IH He).
  - destruct (reify_entries _ attrs) as [e|] eqn:He; [|done].
    by rewrite (reify_entries_mono _ _ _ _ IH He).
  - destruct (reify depth h data) as [dv|] eqn:Hd; [|done].
    by rewrite (IH _ _ Hd).
Qed.

(** ** Non-mutation *)

(** C1. [value] does not mutate the original, nor any other object that
    exists when it is called.  Whatever the partial [self] and the value
    [original], from every heap [h]: in the heap left by
    [self.value(original)] (whether the call returns a value, raises, or
    reaches the recursion limit) every object of [h] is still at its
    address and is the same object; so the original, read back as a tree
    to any depth, is the tree it was before the call, with every attribute
    of a record, every entry of a mapping and every element of a sequence
    as it was. *)
Theorem value_does_not_mutate (fuel : nat) (self original : sval) (h : heap) :
  (∀ l o, h !! l = Some o → (value fuel self original h).2 !! l = Some o)
  ∧ (∀ depth t, reify depth h original = Some t →
                reify depth (value fuel self original h).2 original = Some t).
Proof.
  assert (∀ l o, h !! l = Some o → (value fuel self original h).2 !! l = Some o)
    as Hsub.
  { intros l o Hl.
    destruct (safe_value (length h) fuel self original h) as [[_ Hsame] _]; [done|].
    rewrite Hsame; [done|]. by eapply lookup_lt_Some. }
  split; [done|]. intros depth t. by apply reify_preserved.
Qed.

Lemma value_does_not_mutate_witness :
  (value 20 (SRef 2) (SRef 4)
     [ODict [("b", SInt 99)]; ODict [("a", SRef 0)];
      OPartial Partial (Some (SRef 1));
      ODict [("b", SInt 1); ("c", SInt 2)]; ODict [("a", SRef 3)]]).2 !! 4%nat
  = Some (ODict [("a", SRef 3)])
  ∧ reify 5
      (value 20 (SRef 2) (SRef 4)
         [ODict [("b", SInt 99)]; ODict [("a", SRef 0)];
          OPartial Partial (Some (SRef 1));
          ODict [("b", SInt 1); ("c", SInt 2)]; ODict [("a", SRef 3)]]).2
      (SRef 4)
    = Some (VDict (dict_of [("a", VDict (dict_of [("b", VInt 1); ("c", VInt 2)]))])).
Proof.
  destruct (value_does_not_mutate 20 (SRef 2) (SRef 4)
              [ODict [("b", SInt 99)]; ODict [("a", SRef 0)];
               OPartial Partial (Some (SRef 1));
               ODict [("b", SInt 1); ("c", SInt 2)]; ODict [("a", SRef 3)]])
    as [Hobj Htree].
  split.
  - apply Hobj. reflexivity.
  - apply Htree. reflexivity.
Defined.

End StoreFacts.

(** * Further properties of the store layer *)

Module StoreMore.
Import Store StoreFacts.

(** ** What the result shares *)

(** X8. Without an [items] directive, [value] on a list returns the
    original list object itself, not a copy, and allocates nothing: the
    heap is left exactly as it was. *)
Theorem value_without_items_returns_original (fuel : nat) (p kd l : loc)
    (cls : partial_class) (d : list (string * sval)) (elems : list sval)
    (h : heap) :
  h !! p = Some (OPartial cls (Some (SRef kd))) →
  h !! kd = Some (ODict d) →
  sget "items" d = None →
  h !! l = Some (OList elems) →
  value (S fuel) (SRef p) (SRef l) h = (inl (SRef l), h).
Proof.
  intros Hp Hkd Hitems Hl. simpl.
  unfold value_body, partial_data, isinstance_model, isinstance_dict,
    isinstance_list, kind_is, _partial_list, dict_items, deref, mbind, read, ret.
  repeat (first [rewrite Hp | rewrite Hl | rewrite Hkd | rewrite Hitems]; simpl).
  reflexivity.
Qed.

Lemma value_without_items_returns_original_witness :
  value 1 (SRef 1) (SRef 2)
    [ODict [("x", SInt 0)]; OPartial Partial (Some (SRef 0)); OList [SInt 1]]
  = (inl (SRef 2),
     [ODict [("x", SInt 0)]; OPartial Partial (Some (SRef 0)); OList [SInt 1]]).
Proof.
  apply (value_without_items_returns_original 0 1 0 2 Partial
           [("x", SInt 0)] [SInt 1]); reflexivity.
Defined.

Section methods_fresh.
Variable n0 : nat.
Variable fuel : nat.
Variable self_value : sval → sval → M sval.
Hypothesis self_value_safe :
  ∀ self original, safe n0 (self_value self original) (λ _, True).

Ltac safe_call := first [apply self_value_safe | apply safe_merge_dicts].

Lemma fresh_partial_base_model data original :
  safe n0 (_partial_base_model fuel self_value data original) (fresh n0).
Proof.
  unfold _partial_base_model.
  eapply safe_bind; [apply safe_deepcopy|]. intros result Hresult.
  eapply safe_bind; [apply safe_dict_items|]. intros entries _.
  eapply safe_bind; [|intros; by apply safe_ret].
  safe_auto safe_call.
Qed.

Lemma fresh_partial_dict data original :
  safe n0 (_partial_dict fuel self_value data original) (fresh n0).
Proof.
  unfold _partial_dict.
  eapply safe_bind; [apply safe_deepcopy|]. intros result Hresult.
  eapply safe_bind; [apply safe_dict_items|]. intros entries _.
  eapply safe_bind; [|intros; by apply safe_ret].
  safe_auto safe_call.
Qed.
End methods_fresh.

(** A value returned by [m] satisfies [Q]. *)
Definition post {A : Type} (m : M A) (Q : A → Prop) : Prop :=
  ∀ h a h', m h = (inl a, h') → Q a.

Lemma post_ret {A : Type} (a : A) (Q : A → Prop) : Q a → post (ret a) Q.
Proof. intros HQ h a' h' [= <- _]. done. Qed.

Lemma post_fail {A : Type} f (Q : A → Prop) : post (fail f) Q.
Proof. intros h a h' [=]. Qed.

Lemma post_bind {A B : Type} (m : M A) (k : A → M B) (P : A → Prop)
    (Q : B → Prop) :
  post m P → (∀ a, P a → post (k a) Q) → post (mbind m k) Q.
Proof.
  intros Hm Hk h b h'. unfold mbind.
  destruct (m h) as [[a|f] h1] eqn:E; [|discriminate].
  apply Hk. by eapply Hm.
Qed.

Lemma post_any {A : Type} (m : M A) : post m (λ _, True).
Proof. by intros h a h' _. Qed.

Definition is_ref (v : sval) : Prop := ∃ y, v = SRef y.

Lemma deepcopy_returns_ref fuel l : post (deepcopy fuel (SRef l)) is_ref.
Proof.
  unfold deepcopy. eapply post_bind; [|intros cm H; apply post_ret, H].
  destruct fuel as [|fuel]; simpl; [apply post_fail|].
  eapply post_bind; [apply post_any|]. intros o _.
  destruct o as [elems|entries|c attrs|cls [d|]].
  - eapply post_bind; [apply post_any|]. intros y _.
    eapply post_bind; [apply post_any|]. intros m _. apply post_ret. by exists y.
  - eapply post_bind; [apply post_any|]. intros y _.
    eapply post_bind; [apply post_any|]. intros m _. apply post_ret. by exists y.
  - eapply post_bind; [apply post_any|]. intros am _.
    eapply post_bind; [apply post_any|]. intros y _. apply post_ret. by exists y.
  - eapply post_bind; [apply post_any|]. intros y _.
    eapply post_bind; [apply post_any|]. intros cm _.
    eapply post_bind; [apply post_any|]. intros _ _. apply post_ret. by exists y.
  - eapply post_bind; [apply post_any|]. intros y _. apply post_ret. by exists y.
Qed.

Lemma _partial_dict_returns_ref fuel self_value data l :
  post (_partial_dict fuel self_value data (SRef l)) is_ref.
Proof.
  unfold _partial_dict. eapply post_bind; [apply deepcopy_returns_ref|].
  intros result Hres. eapply post_bind; [apply post_any|]. intros entries _.
  eapply post_bind; [apply post_any|]. intros _ _. by apply post_ret.
Qed.

Lemma _partial_base_model_returns_ref fuel self_value data l :
  post (_partial_base_model fuel self_value data (SRef l)) is_ref.
Proof.
  unfold _partial_base_model. eapply post_bind; [apply deepcopy_returns_ref|].
  intros result Hres. eapply post_bind; [apply post_any|]. intros entries _.
  eapply post_bind; [apply post_any|]. intros _ _. by apply post_ret.
Qed.

Lemma partial_data_heap self h : (partial_data self h).2 = h.
Proof.
  unfold partial_data, deref, mbind, read, fail, ret.
  destruct self as [| | | |p]; try done.
  destruct (h !! p) as [[| | |cls [data|]]|]; done.
Qed.

(** X9. The result of patching a mapping or a record is a new object:
    whenever [value] returns for an original that is a dict or a record,
    it returns a reference to an address that was not in use before the
    call, so the result is never the original itself. *)
Theorem value_returns_new_object (fuel : nat) (self r : sval) (l : loc)
    (o : obj) (h h' : heap) :
  h !! l = Some o →
  (match o with ODict _ | OModel _ _ => True | _ => False end) →
  value fuel self (SRef l) h = (inl r, h') →
  ∃ y, r = SRef y ∧ (length h ≤ y)%nat ∧ y ≠ l.
Proof.
  intros Hl Hkind Hval.
  assert (fresh (length h) r ∧ is_ref r) as [Hfresh [y ->]].
  { destruct fuel as [|fuel]; [discriminate|]. simpl in Hval.
    unfold value_body in Hval. unfold mbind at 1 in Hval.
    pose proof (partial_data_heap self h) as Hheap.
    destruct (partial_data self h) as [[data|f] h1]; simpl in Hheap; subst h1;
      [|discriminate].
    unfold isinstance_model, isinstance_dict, isinstance_list, kind_is,
      mbind, read, ret in Hval.
    destruct o as [|d|c attrs|]; try done;
      repeat (rewrite Hl in Hval; cbn beta iota zeta in Hval).
    - split; [|by eapply _partial_dict_returns_ref].
      destruct (fresh_partial_dict (length h) fuel (value fuel)
                  (λ s o, safe_value (length h) fuel s o) data (SRef l) h)
        as [_ Hpost]; [done|].
      apply Hpost. by rewrite Hval.
    - split; [|by eapply _partial_base_model_returns_ref].
      destruct (fresh_partial_base_model (length h) fuel (value fuel)
                  (λ s o, safe_value (length h) fuel s o) data (SRef l) h)
        as [_ Hpost]; [done|].
      apply Hpost. by rewrite Hval. }
  exists y. simpl in Hfresh. split; [done|]. split; [done|].
  apply lookup_lt_Some in Hl. lia.
Qed.

Lemma value_returns_new_object_witness :
  ∃ y, (value 20 (SRef 2) (SRef 4)
          [ODict [("b", SInt 99)]; ODict [("a", SRef 0)];
           OPartial Partial (Some (SRef 1));
           ODict [("b", SInt 1); ("c", SInt 2)]; ODict [("a", SRef 3)]]).1
       = inl (SRef y)
       ∧ (5 ≤ y)%nat ∧ y ≠ 4%nat.
Proof.
  destruct (value_returns_new_object 20 (SRef 2) (SRef 5) 4 (ODict [("a", SRef 3)])
           [ODict [("b", SInt 99)]; ODict [("a", SRef 0)];
            OPartial Partial (Some (SRef 1));
            ODict [("b", SInt 1); ("c", SInt 2)]; ODict [("a", SRef 3)]]
           (value 20 (SRef 2) (SRef 4)
              [ODict [("b", SInt 99)]; ODict [("a", SRef 0)];
               OPartial Partial (Some (SRef 1));
               ODict [("b", SInt 1); ("c", SInt 2)]; ODict [("a", SRef 3)]]).2)
    as (y & Hy & Hlen & Hne).
  - reflexivity.
  - exact I.
  - vm_compute. reflexivity.
  - exists y. split; [by rewrite <- Hy | done].
Defined.

(** ** A full replacement shares the list of the patch *)

Definition no_ref (v : sval) : Prop :=
  match v with
  | SRef _ => False
  | _ => True
  end.

Lemma deepcopy_memo_no_ref fuel x m h :
  no_ref x → deepcopy_memo fuel x m h = (inl (x, m), h).
Proof. destruct fuel, x; done. Qed.

(** The deep copy of a list of scalars is a new list with the same
    elements. *)
Lemma deepcopy_flat_list fuel l elems h :
  h !! l = Some (OList elems) → Forall no_ref elems →
  deepcopy (S fuel) (SRef l) h = (inl (SRef (length h)), (h ++ [OList elems])%list).
Proof.
  intros Hl Hflat. unfold deepcopy, mbind at 1. simpl.
  unfold mbind at 1, read. rewrite Hl.
  unfold mbind at 1, alloc.
  assert (∀ done rest m,
    Forall no_ref rest →
    for_list
      (λ a m, mbind (deepcopy_memo fuel a m) (λ cm,
              mbind (list_append (SRef (length h)) cm.1) (λ _, ret cm.2)))
      rest m (h ++ [OList done])%list
    = (inl m, (h ++ [OList (done ++ rest)])%list)) as Hloop.
  { intros done rest. revert done.
    induction rest as [|a rest IH]; intros done m Hrest.
    - simpl. by rewrite app_nil_r.
    - inversion_clear Hrest as [|? ? Ha Hrest']. simpl.
      unfold mbind at 1. unfold mbind at 1.
      rewrite deepcopy_memo_no_ref by done. simpl.
      unfold mbind at 1, mbind at 1, read.
      rewrite lookup_app_r, Nat.sub_diag by done. simpl.
      unfold write. rewrite decide_True by (rewrite length_app; simpl; lia).
      simpl. unfold ret at 1.
      replace (<[length h:=OList (done ++ [a])]> (h ++ [OList done]))%list
        with (h ++ [OList (done ++ [a])])%list.
      + rewrite (IH (done ++ [a])%list) by done. by rewrite <- app_assoc.
      + rewrite insert_app_r_alt, Nat.sub_diag by done. done. }
  unfold mbind. rewrite (Hloop [] elems) by done. done.
Qed.

Lemma mbind_inl {A B : Type} (m : M A) (k : A → M B) a h h1 :
  m h = (inl a, h1) → mbind m k h = k a h1.
Proof. unfold mbind. by intros ->. Qed.

Lemma eval_partial_data p cls data h :
  h !! p = Some (OPartial cls (Some data)) →
  partial_data (SRef p) h = (inl data, h).
Proof. intros Hp. unfold partial_data, deref, mbind, read. by rewrite Hp. Qed.

Lemma eval_kind_is test l o h :
  h !! l = Some o → kind_is test (SRef l) h = (inl (test o), h).
Proof. intros Hl. unfold kind_is, mbind, read. by rewrite Hl. Qed.

Lemma eval_dict_items kd d h :
  h !! kd = Some (ODict d) → dict_items (SRef kd) h = (inl d, h).
Proof. intros Hkd. unfold dict_items, deref, mbind, read. by rewrite Hkd. Qed.

(** X10. When the [items] directive is a list, [value] returns that list
    object itself: the result is shared with the patch, not copied (and
    the deep copy of the original made beforehand is left unused).  For an
    original list of scalars the call returns, leaving that copy as the
    only new object. *)
Theorem value_items_list_shares_patch (fuel : nat) (p kd li l : loc)
    (cls : partial_class) (d : list (string * sval)) (xs elems : list sval)
    (h : heap) :
  h !! p = Some (OPartial cls (Some (SRef kd))) →
  h !! kd = Some (ODict d) →
  sget "items" d = Some (SRef li) →
  h !! li = Some (OList xs) →
  h !! l = Some (OList elems) →
  (∀ r h', value (S fuel) (SRef p) (SRef l) h = (inl r, h') → r = SRef li)
  ∧ (Forall no_ref elems →
     value (S (S fuel)) (SRef p) (SRef l) h
     = (inl (SRef li), (h ++ [OList elems])%list)).
Proof.
  intros Hp Hkd Hitems Hli Hl.
  assert (∀ n,
    value (S n) (SRef p) (SRef l) h =
    match deepcopy n (SRef l) h with
    | (inl result, h1) =>
        match h1 !! li with
        | Some (OList _) => (inl (SRef li), h1)
        | _ => value (S n) (SRef p) (SRef l) h
        end
    | (inr f, h1) => (inr f, h1)
    end) as Hstep.
  { intros n. destruct (deepcopy n (SRef l) h) as [[result|f] h1] eqn:Hcopy.
    - destruct (h1 !! li) as [[ys| | |]|] eqn:Hli1; try done.
      simpl. unfold value_body.
      rewrite (mbind_inl _ _ _ _ _ (eval_partial_data _ _ _ _ Hp)).
      unfold isinstance_model, isinstance_dict, isinstance_list.
      rewrite !(mbind_inl _ _ _ _ _ (eval_kind_is _ _ _ _ Hl)). simpl.
      unfold _partial_list.
      rewrite (mbind_inl _ _ _ _ _ (eval_dict_items _ _ _ Hkd)), Hitems.
      rewrite (mbind_inl _ _ _ _ _ Hcopy).
      unfold isinstance_model, isinstance_dict, isinstance_list.
      by rewrite !(mbind_inl _ _ _ _ _ (eval_kind_is _ _ _ _ Hli1)).
    - simpl. unfold value_body.
      rewrite (mbind_inl _ _ _ _ _ (eval_partial_data _ _ _ _ Hp)).
      unfold isinstance_model, isinstance_dict, isinstance_list.
      rewrite !(mbind_inl _ _ _ _ _ (eval_kind_is _ _ _ _ Hl)). simpl.
      unfold _partial_list.
      rewrite (mbind_inl _ _ _ _ _ (eval_dict_items _ _ _ Hkd)), Hitems.
      unfold mbind at 1. by rewrite Hcopy. }
  assert (∀ n result h1,
    deepcopy n (SRef l) h = (inl result, h1) → h1 !! li = Some (OList xs)) as Hkeep.
  { intros n result h1 Hcopy.
    destruct (safe_deepcopy (length h) n (SRef l) h) as [[_ Hsame] _]; [done|].
    rewrite Hcopy in Hsame. simpl in Hsame. rewrite Hsame; [done|].
    by eapply lookup_lt_Some. }
  split.
  - intros r h'. rewrite Hstep.
    destruct (deepcopy fuel (SRef l) h) as [[result|f] h1] eqn:Hcopy; [|discriminate].
    rewrite (Hkeep _ _ _ Hcopy). by intros [= <- _].
  - intros Hflat. rewrite Hstep.
    rewrite (deepcopy_flat_list fuel l elems h Hl Hflat).
    rewrite lookup_app_l by by eapply lookup_lt_Some. by rewrite Hli.
Qed.

Lemma value_items_list_shares_patch_witness :
  value 2 (SRef 2) (SRef 3)
    [OList [SInt 9; SInt 9]; ODict [("items", SRef 0)];
     OPartial Partial (Some (SRef 1)); OList [SInt 1; SInt 2; SInt 3]]
  = (inl (SRef 0),
     [OList [SInt 9; SInt 9]; ODict [("items", SRef 0)];
      OPartial Partial (Some (SRef 1)); OList [SInt 1; SInt 2; SInt 3];
      OList [SInt 1; SInt 2; SInt 3]]).
Proof.
  apply (value_items_list_shares_patch 0 2 1 0 3 Partial [("items", SRef 0)]
           [SInt 9; SInt 9] [SInt 1; SInt 2; SInt 3]); try reflexivity.
  repeat constructor.
Defined.

End StoreMore.

(** * The two layers on the examples of the spec *)

(** On each example the store layer returns the tree that the value layer
    returns (or raises when it raises), and leaves the original as it
    was. *)
Lemma layers_agree_on_examples :
  Forall (λ po, run_value 20 po.1 po.2 = (returned (value po.1 po.2), Some po.2))
         spec_examples.
Proof. repeat constructor. Qed.

(** An assignment is made in place: it is seen through every reference to
    the object. *)
Lemma dict_setitem_in_place :
  Store.dict_setitem (Store.SRef 0) "k" (Store.SInt 1) [Store.ODict []]
  = (inl (), [Store.ODict [("k", Store.SInt 1)]]).
Proof. reflexivity. Qed.

(** Without an [items] directive [value] returns the original list itself,
    not a copy: the result shares the object with the original. *)
Lemma value_without_items_shares :
  Store.value 5 (Store.SRef 1) (Store.SRef 2)
    [Store.ODict []; Store.OPartial Partial (Some (Store.SRef 0));
     Store.OList [Store.SInt 1]]
  = (inl (Store.SRef 2),
     [Store.ODict []; Store.OPartial Partial (Some (Store.SRef 0));
      Store.OList [Store.SInt 1]]).
Proof. reflexivity. Qed.

(** * Properties of utils.py *)

Module UtilsFacts.
Import Utils.

(** ** [chunker] *)

Lemma py_slice_chunk {A : Type} (s : list A) (i k : nat) :
  (0 < k)%nat →
  py_slice s (Z.of_nat i * Z.of_nat k) (Z.of_nat i * Z.of_nat k + Z.of_nat k)
  = take k (drop (i * k) s).
Proof.
  intros Hk. unfold py_slice, slice_bound.
  rewrite !decide_False by lia.
  destruct (decide (i * k ≤ length s)%nat) as [Hle|Hgt].
  - replace (Z.to_nat ((Z.of_nat i * Z.of_nat k) `min` Z.of_nat (length s)))
      with (i * k)%nat by lia.
    destruct (decide (i * k + k ≤ length s)%nat).
    + f_equal. lia.
    + rewrite !take_ge; [done|rewrite length_drop; lia..].
  - replace (Z.to_nat ((Z.of_nat i * Z.of_nat k) `min` Z.of_nat (length s)))
      with (length s) by lia.
    rewrite !drop_ge by lia. by rewrite !take_nil.
Qed.

Lemma concat_chunks {A : Type} (k : nat) (s : list A) (n : nat) :
  (0 < k)%nat → (length s ≤ n * k)%nat →
  concat ((λ i, take k (drop (i * k) s)) <$> seq 0 n) = s.
Proof.
  intros Hk. revert s. induction n as [|n IH]; intros s Hlen.
  - simpl. destruct s; [done | simpl in Hlen; lia].
  - cbn [seq fmap list_fmap concat]. rewrite <- fmap_S_seq, <- list_fmap_compose.
    simpl. rewrite drop_0.
    rewrite (list_fmap_ext _ (λ i, take k (drop (i * k) (drop k s))) (seq 0 n)).
    + rewrite IH; [apply take_drop|]. rewrite length_drop. lia.
    + intros j x _. simpl. rewrite drop_drop. repeat f_equal; lia.
Qed.

Lemma chunk_count_bounds (len size : Z) :
  (0 ≤ len → 0 < size →
   let q := (len + size - 1) / size in
   0 ≤ q ∧ len ≤ size * q ∧ size * q < len + size)%Z.
Proof.
  intros Hlen Hsize q.
  pose proof (Z.div_mod (len + size - 1) size ltac:(lia)) as Hdm.
  pose proof (Z.mod_pos_bound (len + size - 1) size Hsize) as Hmod.
  fold q in Hdm. nia.
Qed.

(** X11. For a positive [size], [chunker] cuts the sequence into
    consecutive chunks: concatenated in order they give the sequence back,
    there are [ceil(len(seq) / size)] of them, none is empty, none is
    longer than [size], and all but the last have exactly [size]
    elements. *)
Theorem chunker_partitions {A : Type} (s : list A) (size : Z) :
  (0 < size)%Z →
  ∃ chunks,
    chunker s size = Ok chunks
    ∧ concat chunks = s
    ∧ Z.of_nat (length chunks) = (Z.of_nat (length s) + size - 1) / size
    ∧ ∀ i c, chunks !! i = Some c →
        (0 < length c)%nat
        ∧ (Z.of_nat (length c) ≤ size)%Z
        ∧ ((S i < length chunks)%nat → Z.of_nat (length c) = size).
Proof.
  intros Hsize. set (k := Z.to_nat size).
  destruct (chunk_count_bounds (Z.of_nat (length s)) size) as (Hq0 & Hq1 & Hq2);
    [lia..|].
  set (q := ((Z.of_nat (length s) + size - 1) / size)%Z) in *.
  set (n := Z.to_nat q).
  assert (size = Z.of_nat k) as Hk by lia.
  assert (q = Z.of_nat n) as Hn by lia.
  rewrite Hk, Hn in Hq1, Hq2.
  exists ((λ i, take k (drop (i * k) s)) <$> seq 0 n).
  split_and!.
  - unfold chunker, py_range. rewrite decide_False, decide_True by lia.
    rewrite Z.sub_0_r. fold q n. simpl. f_equal.
    rewrite <- list_fmap_compose. apply list_fmap_ext.
    intros j i _. simpl. rewrite Hk.
    replace (0 + Z.of_nat i * Z.of_nat k)%Z with (Z.of_nat i * Z.of_nat k)%Z by lia.
    apply py_slice_chunk. lia.
  - apply concat_chunks; [lia|]. nia.
  - rewrite length_fmap, length_seq. lia.
  - intros i c Hc. rewrite length_fmap, length_seq.
    apply list_lookup_fmap_Some in Hc as (j & -> & Hj).
    apply lookup_seq in Hj as [-> Hi]. simpl.
    rewrite length_take, length_drop.
    assert (i * k + k ≤ n * k)%nat as Hik by nia.
    assert (n * k < length s + k)%nat as Hnk by nia.
    split_and!; [lia..|]. intros Hnext.
    assert (S i * k + k ≤ n * k)%nat by nia. lia.
Qed.

Lemma chunker_partitions_witness :
  ∃ chunks, chunker [1; 2; 3; 4; 5]%nat 2 = Ok chunks
            ∧ concat chunks = [1; 2; 3; 4; 5]%nat
            ∧ Z.of_nat (length chunks) = 3.
Proof.
  destruct (chunker_partitions [1; 2; 3; 4; 5]%nat 2) as (chunks & H1 & H2 & H3 & _);
    [lia|].
  exists chunks. split_and!; [exact H1 | exact H2 | exact H3].
Defined.

(** X12. A [size] that is not positive yields no chunk: [chunker] raises a
    [ValueError] for [size = 0], and for a negative [size] it yields
    nothing at all, whatever the sequence, so the sequence is lost. *)
Theorem chunker_nonpositive_size {A : Type} (s : list A) (size : Z) :
  (size ≤ 0)%Z →
  chunker s size =
  if decide (size = 0) then Raise (ValueError "range() arg 3 must not be zero")
  else Ok [].
Proof.
  intros Hsize. unfold chunker, py_range.
  destruct (decide (size = 0)) as [->|Hne]; [done|].
  rewrite decide_False by lia. simpl.
  replace (Z.to_nat ((0 - Z.of_nat (length s) - size - 1) / - size)) with 0%nat;
    [done|].
  assert ((0 - Z.of_nat (length s) - size - 1) / - size < 1)%Z; [|lia].
  apply Z.div_lt_upper_bound; lia.
Qed.

Lemma chunker_nonpositive_size_witness :
  chunker [1; 2; 3]%nat (-2) = Ok []
  ∧ chunker [1; 2; 3]%nat 0 = Raise (ValueError "range() arg 3 must not be zero").
Proof.
  split.
  - apply (chunker_nonpositive_size [1; 2; 3]%nat (-2)). lia.
  - apply (chunker_nonpositive_size [1; 2; 3]%nat 0). lia.
Defined.

(** ** [coalesce] *)

(** X13. [coalesce] returns the first argument that is not [None]: it
    returns [v] exactly when [v] is not [None] and stands after arguments
    that are all [None]; it raises exactly when every argument is [None]
    (also when there are arguments), and then with the [ValueError] "No
    arguments provided". *)
Theorem coalesce_first_not_none (args : list val) :
  (∀ v, coalesce args = Ok v ↔
        ∃ pre post, args = (pre ++ v :: post)%list
                    ∧ Forall (λ a, a = VNone) pre ∧ v ≠ VNone)
  ∧ (∀ e, coalesce args = Raise e ↔
          Forall (λ a, a = VNone) args ∧ e = ValueError "No arguments provided").
Proof.
  induction args as [|arg rest [IHok IHraise]].
  - split.
    + intros v. split; [discriminate|]. intros (pre & post & H & _).
      by destruct pre.
    + intros e. simpl. split; [by intros [= <-] | by intros [_ ->]].
  - assert (arg = VNone ∨ arg ≠ VNone) as [->|Hne]
      by (destruct arg; (by left) || (by right)).
    + split.
      * intros v. simpl. rewrite IHok. split.
        -- intros (pre & post & -> & Hpre & Hv).
           exists (VNone :: pre), post. split_and!; [done| |done].
           by apply Forall_cons.
        -- intros (pre & post & Heq & Hpre & Hv).
           destruct pre as [|a pre]; simpl in Heq.
           ++ injection Heq as <- _. done.
           ++ injection Heq as <- ->. apply Forall_cons in Hpre as [_ Hpre].
              by exists pre, post.
      * intros e. simpl. rewrite IHraise. rewrite Forall_cons. tauto.
    + assert (coalesce (arg :: rest) = Ok arg) as Hval by by destruct arg.
      split.
      * intros v. rewrite Hval. split.
        -- intros [= <-]. exists [], rest. split_and!; [done| |done]. apply Forall_nil_2.
        -- intros (pre & post & Heq & Hpre & Hv).
           destruct pre as [|a pre]; simpl in Heq.
           ++ by injection Heq as <- _.
           ++ injection Heq as <- _. by apply Forall_cons in Hpre as [? _].
      * intros e. rewrite Hval. split; [discriminate|].
        intros [[? _]%Forall_cons _]. done.
Qed.

(** ** [merge_dicts] *)

Lemma update_get_other k result d :
  k ∉ keys d → dict_get k (update result d) = dict_get k result.
Proof.
  revert result. induction d as [|key v rest IH]; intros result; simpl; [done|].
  intros [Hne Hnin]%not_elem_of_cons. rewrite IH by done.
  apply dict_get_set_ne. congruence.
Qed.

Lemma update_get k result d :
  NoDup (keys d) →
  dict_get k (update result d) =
  match dict_get k d with
  | Some v => Some v
  | None => dict_get k result
  end.
Proof.
  revert result. induction d as [|key v rest IH]; intros result; simpl; [done|].
  intros [Hnin Hnd]%NoDup_cons.
  destruct (decide (key = k)) as [->|Hne].
  - rewrite update_get_other by done. apply dict_get_set_eq.
  - rewrite IH by done. destruct (dict_get k rest); [done|].
    by apply dict_get_set_ne.
Qed.

Lemma foldl_update_get_none k result dicts :
  Forall (λ d, dict_get k d = None) dicts →
  dict_get k (foldl update result dicts) = dict_get k result.
Proof.
  revert result. induction dicts as [|d dicts IH]; intros result Hnone; [done|].
  apply Forall_cons in Hnone as [Hd Hnone]. simpl. rewrite IH by done.
  apply update_get_other. by apply dict_get_None.
Qed.

(** X14. [merge_dicts] is a shallow merge in which the last dict wins: the
    value of a key in the result is its value in the last dict that has the
    key, whatever the earlier dicts hold for it (dict values are replaced,
    not merged), and a key that no dict has is not in the result. *)
Theorem merge_dicts_last_wins (dicts : list entries) (k : string) :
  (∀ pre d post v,
     dicts = (pre ++ d :: post)%list →
     NoDup (keys d) →
     dict_get k d = Some v →
     Forall (λ d', dict_get k d' = None) post →
     dict_get k (merge_dicts dicts) = Some v)
  ∧ (Forall (λ d, dict_get k d = None) dicts →
     dict_get k (merge_dicts dicts) = None).
Proof.
  split.
  - intros pre d post v -> Hnd Hd Hpost. unfold merge_dicts.
    rewrite foldl_app. simpl. rewrite foldl_update_get_none by done.
    by rewrite update_get, Hd.
  - intros Hnone. unfold merge_dicts. by rewrite foldl_update_get_none.
Qed.

Lemma merge_dicts_last_wins_witness :
  dict_get "a"
    (merge_dicts
       [dict_of [("a", VDict (dict_of [("b", VInt 1); ("c", VInt 2)]))];
        dict_of [("a", VDict (dict_of [("b", VInt 99)]))];
        dict_of [("z", VInt 0)]])
  = Some (VDict (dict_of [("b", VInt 99)])).
Proof.
  apply (proj1 (merge_dicts_last_wins _ "a")
           [dict_of [("a", VDict (dict_of [("b", VInt 1); ("c", VInt 2)]))]]
           (dict_of [("a", VDict (dict_of [("b", VInt 99)]))])
           [dict_of [("z", VInt 0)]]).
  - reflexivity.
  - apply NoDup_singleton.
  - reflexivity.
  - repeat constructor.
Defined.

Lemma coalesce_first_not_none_witness :
  coalesce [VNone; VInt 3; VNone; VInt 4] = Ok (VInt 3).
Proof.
  apply (proj1 (coalesce_first_not_none [VNone; VInt 3; VNone; VInt 4])).
  exists [VNone], [VNone; VInt 4]. split_and!; [reflexivity| |discriminate].
  repeat constructor.
Defined.

(** ** [retry_handler] *)



Section retry_handler_facts.
Context {W R : Type}.
Variable func : W → (R + exc) * W.
Variable retries : Z.



End retry_handler_facts.



(** ** [singleton] *)

Lemma singleton_calls_Some {Args I : Type} (cls : Args → I + exc)
    (instance : I) (calls : list Args) :
  singleton_calls cls calls (Some instance)
  = ((λ _, inl instance) <$> calls, Some instance).
Proof.
  induction calls as [|a rest IH]; [done|].
  cbn [singleton_calls singleton_wrapper fst snd]. by rewrite IH.
Qed.

(** X17. Once the class has been instantiated through the wrapper made by
    [singleton], every later call returns that first instance, whatever
    its arguments, and constructs nothing. *)
Theorem singleton_first_instance {Args I : Type} (cls : Args → I + exc)
    (args : Args) (instance : I) (calls : list Args) :
  cls args = inl instance →
  singleton_calls cls (args :: calls) None
  = (inl instance :: ((λ _, inl instance) <$> calls), Some instance).
Proof.
  intros Hcls. cbn [singleton_calls singleton_wrapper]. rewrite Hcls.
  cbn [fst snd]. by rewrite singleton_calls_Some.
Qed.

Lemma singleton_first_instance_witness :
  singleton_calls (λ n : nat, inl (n * 10)%nat) [1; 2; 3]%nat None
  = ([inl 10; inl 10; inl 10]%nat, Some 10%nat).
Proof.
  apply (singleton_first_instance (λ n : nat, inl (n * 10)%nat) 1%nat 10%nat
           [2; 3]%nat).
  reflexivity.
Defined.

End UtilsFacts.
